(** * The assembled-exam endpoint of server.js, in Rocq

    A shallow embedding of [GET /exams/assembled] (server.js, lines
    1193-1290) and of the helper [shuffle] (line 97), followed by the
    properties the specification states about the exam-assembly algorithm.

    Conventions of the embedding.
    - In the handler, JavaScript numbers are embedded at their integer
      values, as [Z]: the request parameters [base] and [max], the stored
      [questionPercentage] and [setOrder], and every counter.  A request
      whose [base] or [max] is not an integer, or a stored number that is
      not one, is outside this part of the model.
    - The target of an exam is also given in double precision, as the code
      computes it ([IEEE.targetCount], over the binary64 operations of the
      standard library's [SpecFloat]).  The two agree while the product
      [base * questionPercentage] stays below 2^53 in absolute value
      ([targetCount_exact]); beyond that the product is rounded before the
      division and the target of the code can differ from the nearest
      integer.
    - [Math.random] is ambient state.  It is threaded through the handler by
      the state monad [M]; what a shuffle does with the values it draws is
      described at [shuffle].
    - [toAbsoluteImageUrl] only rewrites the [image] field of a question; it
      is a parameter of the development. *)

From Stdlib Require Import ZArith Ascii String List Lia Bool Sorted SpecFloat.
From stdpp Require Import base tactics option list strings gmap.
Import ListNotations.

#[local] Set Warnings "-clear-no-such-hyp".

Local Open Scope string_scope.
Local Open Scope list_scope.
Local Open Scope Z_scope.

(** ** Data as the handler sees it *)

(** The result of [Number(x)] on a query parameter: [NaN] when the parameter
    is missing or not numeric, [Num z] when it is the integer [z].  (A
    parameter with a fraction, or an infinite one, has no value here.) *)
Inductive jsnum : Type :=
  | NaN
  | Num (z : Z).

(** A question document: [{ id: d.id, ...d.data() }].  [setId] is [None] for
    [null] or a missing field; [setOrder] is [None] when the stored value is
    not a finite number. *)
Record question : Type := mkQuestion {
  qid : string;
  text : string;
  image : option string;
  setId : option string;
  setOrder : option Z
}.

(** An exam with its embedded questions.  [questionPercentage] is [None] when
    the field is missing. *)
Record exam : Type := mkExam {
  eid : string;
  questionPercentage : option Z;
  questions : list question
}.

(** A block is a JavaScript array of questions. *)
Abbreviation block := (list question) (only parsing).

(** [block.length] *)
Definition len (b : block) : Z := Z.of_nat (length b).

(** The part of [req.query] the handler reads. *)
Record request : Type := mkRequest {
  query_base : jsnum;
  query_max : jsnum;
  query_absoluteImages : bool
}.

(** The body of the 200 response. *)
Record response : Type := mkResponse {
  r_base : Z;
  r_max : Z;
  r_count : Z;
  r_questions : list question
}.

Inductive http_result : Type :=
  | Http200 (body : response)
  | Http500 (message : string).

(** ** The ambient random source *)

(** The state of [Math.random], as the sequence of draws still to come. *)
Definition Rand : Type := list nat.

Definition M (A : Type) : Type := Rand -> A * Rand.

Definition ret {A} (a : A) : M A := fun r => (a, r).

Definition bind {A B} (m : M A) (k : A -> M B) : M B :=
  fun r => let '(a, r') := m r in k a r'.

Notation "'let!' x ':=' m 'in' k" := (bind m (fun x => k))
  (at level 10, x name, m at level 100, k at level 200, only parsing).

(** ** [shuffle]

    [const shuffle = (arr) => [...arr].sort(() => Math.random() - 0.5)].

    The comparator ignores its arguments, so the copy is rearranged by the
    random draws alone: each element ends at a position decided by the
    answers the comparator gave while it was being placed.  One draw of
    [Rand] stands for the position an element is placed at (an insertion
    sort driven by random comparisons); a draw past the end of the list
    places the element last, and an exhausted source draws 0.  Every
    permutation of [arr] is the outcome of some draws ([shuffle_with_any],
    [shuffle_any]) and nothing else is ([shuffle_with_Permutation]). *)

Fixpoint insert_at {A} (i : nat) (x : A) (l : list A) : list A :=
  match i, l with
  | O, _ => x :: l
  | S i', y :: l' => y :: insert_at i' x l'
  | S _, [] => [x]
  end.

Fixpoint shuffle_with {A} (draws : list nat) (arr : list A) : list A :=
  match arr with
  | [] => []
  | x :: arr' => insert_at (hd O draws) x (shuffle_with (tl draws) arr')
  end.

Definition shuffle {A} (arr : list A) : M (list A) :=
  fun r => (shuffle_with r arr, skipn (length arr) r).

(** ** [Array.prototype.sort] with a comparator [(a, b) => key a - key b]

    The sort is stable (ECMAScript 2019); for a comparator that is the
    difference of a key, the result is the one of a stable insertion sort. *)

Fixpoint sort_insert {A} (key : A -> Z) (x : A) (l : list A) : list A :=
  match l with
  | [] => [x]
  | y :: l' => if key x <=? key y then x :: y :: l' else y :: sort_insert key x l'
  end.

Fixpoint sort_by {A} (key : A -> Z) (l : list A) : list A :=
  match l with
  | [] => []
  | x :: l' => sort_insert key x (sort_by key l')
  end.

(** ** [buildBlocksForExam] *)

(** [q?.setId] as a condition: [null], a missing field and the empty string
    are falsy. *)
Definition truthy_setId (q : question) : option string :=
  match setId q with
  | Some s => if String.eqb s "" then None else Some s
  | None => None
  end.

(** [Number.isFinite(a.setOrder) ? a.setOrder : 0] *)
Definition orderKey (q : question) : Z :=
  match setOrder q with
  | Some z => z
  | None => 0
  end.

(** The [Map] from set id to array, in insertion order.
    [if (!groups.has(k)) groups.set(k, []); groups.get(k).push(q)] *)
Fixpoint groups_push (k : string) (q : question)
    (groups : list (string * list question)) : list (string * list question) :=
  match groups with
  | [] => [(k, [q])]
  | (k', arr) :: rest =>
      if String.eqb k k' then (k', arr ++ [q]) :: rest
      else (k', arr) :: groups_push k q rest
  end.

(** One turn of [for (const q of exam.questions || [])]. *)
Definition bucket_step (st : list (string * list question) * list block)
    (q : question) : list (string * list question) * list block :=
  let '(groups, singles) := st in
  match truthy_setId q with
  | Some k => (groups_push k q groups, singles)
  | None => (groups, singles ++ [[q]])
  end.

Definition buildBlocksForExam (e : exam) : list block :=
  let '(groups, singles) := fold_left bucket_step (questions e) ([], []) in
  let blocks := (fun kv => sort_by orderKey (snd kv)) <$> groups in
  blocks ++ singles.

(** ** [pickBlocks] *)

(** One turn of [for (const block of pool)], on [(picked, count)]. *)
Definition pick_step (target : Z) (st : list block * Z) (b : block)
    : list block * Z :=
  let '(picked, count) := st in
  if count + len b <=? target then (picked ++ [b], count + len b)
  else (picked, count).

Definition pickBlocks (blocks : list block) (target : Z) : M (list block) :=
  if target <=? 0 then ret []
  else
    let! pool := shuffle blocks in
    let '(picked, _) := fold_left (pick_step target) pool ([], 0) in
    if (Nat.eqb (length picked) 0 && negb (Nat.eqb (length pool) 0)
        && (0 <? target))%bool
    then
      match sort_by len pool with
      | smallest :: _ => ret (picked ++ [smallest])
      | [] => ret picked  (* not reached: [pool] is not empty here *)
      end
    else ret picked.

(** ** The per-exam target *)

(** [Math.round (n / d)] for integers [n] and [d > 0].  [Math.round x] is
    the floor of [x + 1/2], the nearest integer with a tie going to the
    larger one; at [x = n / d] that is the floor of [(2 n + d) / (2 d)]. *)
Definition Math_round_div (n d : Z) : Z := (2 * n + d) / (2 * d).

(** [exam.questionPercentage || 0] *)
Definition percentage_or_0 (e : exam) : Z :=
  match questionPercentage e with
  | Some p => p
  | None => 0
  end.

(** [Math.round((base * (exam.questionPercentage || 0)) / 100)], at an
    integer [base] and an integer or missing [questionPercentage]: the
    value of the computation below as long as the product is below 2^53
    in absolute value. *)
Definition targetCount (base : Z) (e : exam) : Z :=
  Math_round_div (base * percentage_or_0 e) 100.

(** ** The per-exam target in double precision

    The same expression on binary64 numbers, the numbers of JavaScript:
    [spec_float] with 53 bits of precision and infinities at exponent 1024,
    every operation rounding to nearest, ties to even. *)

Module IEEE.

Definition prec : Z := 53.
Definition emax : Z := 1024.

(** The double of an integer literal or of an integer read by [Number]. *)
Definition ofZ (z : Z) : spec_float := binary_normalize prec emax z 0 false.

(** [x * y] and [x / y] *)
Definition mul : spec_float → spec_float → spec_float := SFmul prec emax.
Definition div : spec_float → spec_float → spec_float := SFdiv prec emax.

(** [x || 0] for a number that may be missing: a missing field, [NaN], [0]
    and [-0] are falsy. *)
Definition or0 (x : option spec_float) : spec_float :=
  match x with
  | Some (S754_finite s m e) => S754_finite s m e
  | Some (S754_infinity s) => S754_infinity s
  | _ => S754_zero false
  end.

(** [Math.round(x)]: [x] itself when it is an integer, a zero, an infinity
    or [NaN]; otherwise the floor of [x + 1/2], computed exactly, a result
    of 0 keeping the sign of [x].  A double with a non-negative exponent is
    an integer; with exponent [e < 0] its value is [m / 2^(-e)], and the
    floor of [x + 1/2] is the floor of [(2 m + 2^(-e)) / 2^(1-e)]. *)
Definition Math_round (x : spec_float) : spec_float :=
  match x with
  | S754_finite s m e =>
      if 0 <=? e then x
      else
        let n := (2 * cond_Zopp s (Z.pos m) + 2 ^ (- e)) / 2 ^ (1 - e) in
        if n =? 0 then S754_zero s else ofZ n
  | _ => x
  end.

(** [Math.round((base * (exam.questionPercentage || 0)) / 100)] *)
Definition targetCount (base : spec_float) (questionPercentage : option spec_float)
    : spec_float :=
  Math_round (div (mul base (or0 questionPercentage)) (ofZ 100)).

(** [Number.isFinite(x)] *)
Definition isFinite (x : spec_float) : bool :=
  match x with
  | S754_finite _ _ _ | S754_zero _ => true
  | _ => false
  end.

(** The integer a double is, if it is one; [-0] is 0. *)
Definition integerValue (x : spec_float) : option Z :=
  match x with
  | S754_zero _ => Some 0
  | S754_finite s m e =>
      if 0 <=? e then Some (cond_Zopp s (Z.pos m * 2 ^ e))
      else if Z.pos m mod 2 ^ (- e) =? 0
           then Some (cond_Zopp s (Z.pos m / 2 ^ (- e)))
           else None
  | _ => None
  end.

End IEEE.

(** ** The handler *)

(** [Number(req.query.base) > 0 ? Number(req.query.base) : 25] *)
Definition positive_or (n : jsnum) (default : Z) : Z :=
  match n with
  | Num z => if 0 <? z then z else default
  | NaN => default
  end.

Definition effective_base (req : request) : Z := positive_or (query_base req) 25.
Definition effective_max (req : request) : Z := positive_or (query_max req) 100.

(** [for (const exam of exams) { ... allBlocks.push(...chosenBlocks) }] *)
Fixpoint collectBlocks (base : Z) (exams : list exam) (allBlocks : list block)
    : M (list block) :=
  match exams with
  | [] => ret allBlocks
  | e :: rest =>
      let blocks := buildBlocksForExam e in
      let! chosenBlocks := pickBlocks blocks (targetCount base e) in
      collectBlocks base rest (allBlocks ++ chosenBlocks)
  end.

(** The loop over the shuffled [allBlocks], on [(finalQuestions, used)];
    [break] ends the recursion. *)
Fixpoint trimLoop (max : Z) (allBlocks : list block)
    (finalQuestions : list question) (used : Z) : list question :=
  match allBlocks with
  | [] => finalQuestions
  | b :: rest =>
      if used + len b <=? max
      then trimLoop max rest (finalQuestions ++ b) (used + len b)
      else if used =? 0 then finalQuestions ++ b
      else trimLoop max rest finalQuestions used
  end.

Section Handler.

(** [toAbsoluteImageUrl(req, image)], for the request at hand. *)
Variable toAbsoluteImageUrl : option string -> option string.

(** The callback of [finalQuestions.map]. *)
Definition normalize (absoluteImages : bool) (q : question) : question :=
  if absoluteImages
  then {| qid := qid q; text := text q;
          image := toAbsoluteImageUrl (image q);
          setId := setId q; setOrder := setOrder q |}
  else q.

(** The [try] block once [getAllExamsWithQuestions()] has returned. *)
Definition assemble (req : request) (exams : list exam) : M response :=
  let base := effective_base req in
  let max := effective_max req in
  let absoluteImages := query_absoluteImages req in
  let! allBlocks := collectBlocks base exams [] in
  let! allBlocks := shuffle allBlocks in
  let finalQuestions := trimLoop max allBlocks [] 0 in
  let normalized := normalize absoluteImages <$> finalQuestions in
  ret {| r_base := base; r_max := max;
         r_count := Z.of_nat (length normalized);
         r_questions := normalized |}.

(** The handler: [fetched] is [None] when [getAllExamsWithQuestions()]
    throws, which the [catch] turns into a 500. *)
Definition assembled (req : request) (fetched : option (list exam))
    : M http_result :=
  match fetched with
  | Some exams => let! body := assemble req exams in ret (Http200 body)
  | None => ret (Http500 "Server error assembling exam")
  end.

End Handler.

(** * The vocabulary of the properties *)

(** [f] is the double of the integer of sign [s] and absolute value [x],
    with its mantissa of 53 bits. *)
Definition normal (s : bool) (x : Z) (f : spec_float) : Prop :=
  ∃ k, 0 ≤ k ≤ 52 ∧ 2 ^ 52 ≤ x * 2 ^ k < 2 ^ 53
       ∧ f = S754_finite s (Z.to_pos (x * 2 ^ k)) (- k).

(** The order a sort by [key] puts its elements in. *)
Definition key_le {A} (key : A → Z) (a b : A) : Prop := key a ≤ key b.

(** [q] carries the set id [k]. *)
Definition in_group (k : string) (q : question) : bool :=
  match truthy_setId q with
  | Some k' => String.eqb k' k
  | None => false
  end.

(** The questions of a collection that carry the set id [k], in the order
    of the collection. *)
Definition bucket (k : string) (qs : list question) : list question :=
  List.filter (in_group k) qs.

(** [q] carries no set id. *)
Definition ungrouped (q : question) : bool :=
  match truthy_setId q with
  | Some _ => false
  | None => true
  end.

(** The set ids of a collection, each once, in order of first appearance. *)
Definition add_id (seen : list string) (q : question) : list string :=
  match truthy_setId q with
  | Some k => if bool_decide (k ∈ seen) then seen else seen ++ [k]
  | None => seen
  end.

Definition group_ids (qs : list question) : list string :=
  fold_left add_id qs [].

(** All the questions the request fetched, and all the blocks built from
    them. *)
Definition all_questions (exams : list exam) : list question :=
  mjoin (questions <$> exams).

Definition all_blocks (exams : list exam) : list block :=
  mjoin (buildBlocksForExam <$> exams).

(** The number of questions held by a list of blocks. *)
Definition questionCount (bs : list block) : Z := len (mjoin bs).

(** The condition of the fallback [if] of [pickBlocks]:
    [picked.length === 0 && pool.length && target > 0]. *)
Definition pickFallback (blocks : list block) (target : Z) (r : Rand) : bool :=
  if target <=? 0 then false
  else
    let pool := (shuffle blocks r).1 in
    let '(picked, _) := fold_left (pick_step target) pool ([], 0) in
    (Nat.eqb (length picked) 0 && negb (Nat.eqb (length pool) 0)
     && (0 <? target))%bool.

(** The pool the final walk runs over: the collected blocks, shuffled. *)
Definition shuffledPool (base : Z) (exams : list exam) : M (list block) :=
  let! allBlocks := collectBlocks base exams [] in
  shuffle allBlocks.

(** The walk reaches its [else if (used === 0)] branch with [used === 0]:
    the global fallback fires. *)
Fixpoint trimFallback (max : Z) (allBlocks : list block) (used : Z) : bool :=
  match allBlocks with
  | [] => false
  | b :: rest =>
      if used + len b <=? max then trimFallback max rest (used + len b)
      else if used =? 0 then true
      else trimFallback max rest used
  end.

(** The walk of the specification, without any fallback: a block that fits
    is accepted, a block that would overflow is skipped, and every block of
    the pool gets its turn. *)
Fixpoint fitWalk (max : Z) (pool : list block) (used : Z) : list block :=
  match pool with
  | [] => []
  | b :: rest =>
      if used + len b <=? max then b :: fitWalk max rest (used + len b)
      else fitWalk max rest used
  end.

(** The identifiers of the questions of a list, in order. *)
Definition ids (qs : list question) : list string := qid <$> qs.

(** The global walk as the specification words it: the whole pool is walked,
    a block that would overflow being skipped; the first block of the pool is
    force-accepted only if that walk accepted nothing. *)
Definition specTrim (max : Z) (pool : list block) : list question :=
  match fitWalk max pool 0, pool with
  | [], b :: _ => b
  | accepted, _ => mjoin accepted
  end.

(** Two states of the random source with the same next [n] draws. *)
Definition agree (n : nat) (r1 r2 : Rand) : Prop := take n r1 = take n r2.


(** * A small question bank *)

Module Sample.

(** An image rewrite for the examples: relative references are put under
    the host of the request. *)
Definition absolute (image : option string) : option string :=
  String.append "https://api.example.org/" <$> image.

(** Two parts of one reading passage, stored out of order, and two
    stand-alone questions. *)
Definition part1 : question :=
  {| qid := "q-part1"; text := "Passage, first part"; image := None;
     setId := Some "passage"; setOrder := Some 1 |}.
Definition part2 : question :=
  {| qid := "q-part2"; text := "Passage, second part"; image := None;
     setId := Some "passage"; setOrder := Some 2 |}.
Definition alone : question :=
  {| qid := "q-alone"; text := "Stand-alone"; image := None;
     setId := None; setOrder := Some 0 |}.
Definition other : question :=
  {| qid := "q-other"; text := "Another stand-alone"; image := None;
     setId := None; setOrder := None |}.

Definition reading : exam :=
  {| eid := "reading"; questionPercentage := Some 100;
     questions := [part2; alone; part1] |}.

Definition quiz : exam :=
  {| eid := "quiz"; questionPercentage := Some 100;
     questions := [alone; other] |}.

Definition unweighted : exam :=
  {| eid := "draft"; questionPercentage := None;
     questions := [alone; other] |}.

(** [GET /exams/assembled?max=1&absoluteImages=false] *)
Definition tight : request :=
  {| query_base := NaN; query_max := Num 1; query_absoluteImages := false |}.

(** [GET /exams/assembled?base=-3&max=7] *)
Definition negative_base : request :=
  {| query_base := Num (-3); query_max := Num 7; query_absoluteImages := true |}.

(** [GET /exams/assembled] *)
Definition plain : request :=
  {| query_base := NaN; query_max := NaN; query_absoluteImages := true |}.

End Sample.

(** * Vocabulary of the further properties *)

(** A block of the exam [e] as [buildBlocksForExam] makes it: all the
    questions of [e] that carry one set id, in ascending [setOrder] (0 for
    an order that is missing or not finite), questions of equal order in
    the order of the exam; or one question of [e] that carries no set id. *)
Definition blockOf (e : exam) (b : block) : Prop :=
  let order := λ q : question, match setOrder q with Some z => z | None => 0 end in
  (∃ k : string,
      let set := List.filter (λ q, bool_decide (setId q = Some k)) (questions e) in
      k ≠ "" ∧ b ≠ [] ∧ b ≡ₚ set
      ∧ StronglySorted (λ q1 q2, order q1 ≤ order q2) b
      ∧ ∀ z, List.filter (λ q, order q =? z) b = List.filter (λ q, order q =? z) set)
  ∨ (∃ q, b = [q] ∧ q ∈ questions e ∧ (setId q = None ∨ setId q = Some "")).

(** * More of server.js *)

(** ** [toAbsoluteImageUrl]

    JavaScript strings are embedded at strings of Latin-1 code units, one
    [ascii] for each code unit. *)

(** The code units [trim] strips, among the first 256: tab, line feed,
    vertical tab, form feed, carriage return, space and no-break space. *)
Definition isWhiteSpace (c : ascii) : bool :=
  let n := N_of_ascii c in
  ((n =? 9) || (n =? 10) || (n =? 11) || (n =? 12) || (n =? 13)
   || (n =? 32) || (n =? 160))%N.

Fixpoint trimStart (s : string) : string :=
  match s with
  | EmptyString => EmptyString
  | String c s' => if isWhiteSpace c then trimStart s' else s
  end.

Fixpoint trimEnd (s : string) : string :=
  match s with
  | EmptyString => EmptyString
  | String c s' =>
      let t := trimEnd s' in
      if (isWhiteSpace c && String.eqb t "")%bool then EmptyString
      else String c t
  end.

(** [String.prototype.trim] *)
Definition trim (s : string) : string := trimEnd (trimStart s).

(** A letter as the [i] flag of a regular expression sees it: [A]-[Z] and
    [a]-[z] are the same. *)
Definition foldCase (c : ascii) : ascii :=
  let n := N_of_ascii c in
  if ((65 <=? n) && (n <=? 90))%N then ascii_of_N (n + 32) else c.

(** [s] starts with the lower-case text [p], case ignored. *)
Fixpoint startsWithIgnoreCase (p s : string) : bool :=
  match p, s with
  | EmptyString, _ => true
  | String a p', String b s' =>
      (Ascii.eqb a (foldCase b) && startsWithIgnoreCase p' s')%bool
  | String _ _, EmptyString => false
  end.

(** [/^https?:\/\//i.test(src)] *)
Definition isHttpUrl (src : string) : bool :=
  (startsWithIgnoreCase "http://" src || startsWithIgnoreCase "https://" src)%bool.

(** [src.replace(/^\/?/, "")] *)
Definition dropLeadingSlash (src : string) : string :=
  match src with
  | String "/" rest => rest
  | _ => src
  end.

(** What [toAbsoluteImageUrl] reads of the request: [req.protocol] and
    [req.get("host")], the latter [None] when the header is missing. *)
Record origin : Type := mkOrigin {
  protocol : string;
  host : option string
}.

(** [`${req.protocol}://${req.get("host")}`] *)
Definition originBase (req : origin) : string :=
  String.append (protocol req)
    (String.append "://" (match host req with Some h => h | None => "undefined" end)).

Definition toAbsoluteImageUrl (req : origin) (image : option string)
    : option string :=
  match image with
  | None => None
  | Some img =>
      if (String.eqb img "" || String.eqb (trim img) "")%bool then None
      else
        let src := trim img in
        if isHttpUrl src then Some src
        else
          let base := originBase req in
          if String.prefix "/uploads" src then Some (String.append base src)
          else Some (String.append base
                       (String.append "/" (dropLeadingSlash src)))
  end.

(** The request came over HTTP or HTTPS, which is what Express reports. *)
Definition webProtocol (req : origin) : Prop :=
  protocol req = "http" ∨ protocol req = "https".

(** A string that is empty or starts with something [trim] keeps. *)
Definition startsClean (s : string) : Prop :=
  match s with
  | EmptyString => True
  | String c _ => isWhiteSpace c = false
  end.

(** ** Question payloads: [validateQuestionPayload] and the question routes *)

(** [Number(correctAnswer)] as [Number.isInteger] sees it. *)
Inductive jsindex : Type :=
  | NotAnInteger
  | Integer (z : Z).

(** The [options] of a body as [Array.isArray] sees it. *)
Inductive jsoptions : Type :=
  | NotAnArray
  | Options (items : list string).

(** [text] as a condition: [undefined], [null] and the empty string are
    falsy. *)
Definition truthyText (t : option string) : bool :=
  match t with
  | Some s => negb (String.eqb s "")
  | None => false
  end.

Definition invalidQuestion : string :=
  "Invalid question: 'text' is required and 'options' must have at least 2 items.".

Definition invalidIndex : string := "Invalid 'correctAnswer' index.".

(** [validateQuestionPayload({ text, options, correctAnswer })]: the error
    message, or [None] for [null]. *)
Definition validateQuestionPayload (text : option string) (options : jsoptions)
    (correctAnswer : jsindex) : option string :=
  match truthyText text, options with
  | true, Options items =>
      if Z.of_nat (length items) <? 2 then Some invalidQuestion
      else
        match correctAnswer with
        | Integer idx =>
            if ((idx <? 0) || (Z.of_nat (length items) <=? idx))%bool
            then Some invalidIndex
            else None
        | NotAnInteger => Some invalidIndex
        end
  | _, _ => Some invalidQuestion
  end.

(** A question document of the [questions] sub-collection. *)
Record questionDoc : Type := mkQuestionDoc {
  doc_text : option string;
  doc_options : list string;
  doc_correctAnswer : Z;
  doc_image : option string;
  doc_setId : option string;
  doc_setOrder : Z;
  doc_createdAt : Z
}.

(** What a handler answers: a JSON body, or a status with a message. *)
Inductive reply (A : Type) : Type :=
  | Ok (body : A)
  | Err (status : Z) (message : string).
Arguments Ok {A} body.
Arguments Err {A} status message.

(** [image && String(image).trim() ? String(image).trim() : null] *)
Definition trimmedOrNull (image : option string) : option string :=
  match image with
  | Some img =>
      if (String.eqb img "" || String.eqb (trim img) "")%bool then None
      else Some (trim img)
  | None => None
  end.

(** [setId || null] *)
Definition orNull (setId : option string) : option string :=
  match setId with
  | Some s => if String.eqb s "" then None else Some s
  | None => None
  end.

(** The body of [POST /exams/:examId/questions]; [new_setOrder] is
    [Number(setOrder)], [None] when that is not finite. *)
Record newQuestionBody : Type := mkNewQuestionBody {
  new_text : option string;
  new_options : jsoptions;
  new_correctAnswer : jsindex;
  new_image : option string;
  new_setId : option string;
  new_setOrder : option Z
}.

(** [POST /exams/:examId/questions], up to the document it adds; [now] is
    the server time of the write. *)
Definition addQuestion (examExists : bool) (now : Z) (b : newQuestionBody)
    : reply questionDoc :=
  if negb examExists then Err 404 "Exam not found"
  else
    match validateQuestionPayload (new_text b) (new_options b) (new_correctAnswer b) with
    | Some errMsg => Err 400 errMsg
    | None =>
        Ok {| doc_text := new_text b;
              doc_options := match new_options b with
                             | Options items => items
                             | NotAnArray => []
                             end;
              doc_correctAnswer := match new_correctAnswer b with
                                   | Integer idx => idx
                                   | NotAnInteger => 0
                                   end;
              doc_image := trimmedOrNull (new_image b);
              doc_setId := orNull (new_setId b);
              doc_setOrder := match new_setOrder b with
                              | Some ord => ord
                              | None => 0
                              end;
              doc_createdAt := now |}
    end.

(** The body of [PUT /exams/:examId/questions/:questionId]: each field is
    [None] when [typeof] says [undefined]. *)
Record questionUpdate : Type := mkQuestionUpdate {
  upd_text : option (option string);
  upd_options : option jsoptions;
  upd_correctAnswer : option jsindex;
  upd_image : option (option string);
  upd_setId : option (option string);
  upd_setOrder : option (option Z)
}.

(** [updates] is still [{}] when [qRef.update(updates)] is reached: no
    field of the body is defined. *)
Definition noUpdates (b : questionUpdate) : bool :=
  match upd_text b, upd_options b, upd_correctAnswer b,
        upd_image b, upd_setId b, upd_setOrder b with
  | None, None, None, None, None, None => true
  | _, _, _, _, _, _ => false
  end.

(** [PUT /exams/:examId/questions/:questionId], up to the document that
    [qRef.update(updates)] leaves; [stored] is [None] when the question does
    not exist.  [update] throws on an object without fields, and the
    handler then answers 500. *)
Definition updateQuestion (stored : option questionDoc) (b : questionUpdate)
    : reply questionDoc :=
  match stored with
  | None => Err 404 "Question not found"
  | Some d =>
      let d := match upd_text b with
               | Some text => {| doc_text := text; doc_options := doc_options d;
                                 doc_correctAnswer := doc_correctAnswer d;
                                 doc_image := doc_image d; doc_setId := doc_setId d;
                                 doc_setOrder := doc_setOrder d;
                                 doc_createdAt := doc_createdAt d |}
               | None => d
               end in
      match match upd_options b with
            | Some NotAnArray => None
            | Some (Options items) =>
                if Z.of_nat (length items) <? 2 then None else Some items
            | None => Some (doc_options d)
            end with
      | None => Err 400 "'options' must be an array with at least 2 items"
      | Some current =>
          match match upd_correctAnswer b with
                | Some NotAnInteger => None
                | Some (Integer idx) =>
                    if ((idx <? 0) || (Z.of_nat (length current) <=? idx))%bool
                    then None else Some idx
                | None => Some (doc_correctAnswer d)
                end with
          | None => Err 400 "Invalid 'correctAnswer' index"
          | Some idx =>
              let image := match upd_image b with
                           | Some image => trimmedOrNull image
                           | None => doc_image d
                           end in
              let setId := match upd_setId b with
                           | Some setId => orNull setId
                           | None => doc_setId d
                           end in
              match match upd_setOrder b with
                    | Some None => None
                    | Some (Some ord) => Some ord
                    | None => Some (doc_setOrder d)
                    end with
              | None => Err 400 "'setOrder' must be a number"
              | Some ord =>
                  if noUpdates b then Err 500 "Error updating question"
                  else
                    Ok {| doc_text := doc_text d; doc_options := current;
                          doc_correctAnswer := idx; doc_image := image;
                          doc_setId := setId; doc_setOrder := ord;
                          doc_createdAt := doc_createdAt d |}
              end
          end
      end
  end.

(** The correct answer of a document is one of its options. *)
Definition answerInRange (d : questionDoc) : Prop :=
  0 ≤ doc_correctAnswer d < Z.of_nat (length (doc_options d)).

(** ** Users, validation requests and notes

    The handlers of the user, request and note routes, over the Firestore
    collections they write: each collection is a finite map from document
    id to document.  [doc(id).get()] is a lookup, [set] an insert, [delete]
    a delete that ignores a missing document, [update] a change of the
    named fields that fails on a missing document, and a batch is applied
    as a whole or, if one of its writes fails, not at all.  A server
    timestamp is the time [now] of the write.  A handler is given by the
    status it answers and the store it leaves.  The keys of the maps are
    document ids: [doc] is not followed into the nested paths that an id
    with a slash would name, and the handlers run one at a time, each from
    its first read to its last write. *)

Record userDoc : Type := mkUserDoc {
  uid : string;
  email : string;
  displayName : option string;
  is_validated : bool;
  request_sent : bool;
  last_score : Z;
  Board : string;
  ExamYEar : Z;
  lastNotified : option Z;
  user_createdAt : Z;
  is_Admin : bool
}.

Record requestDoc : Type := mkRequestDoc {
  request_uid : string;
  transactionId : string;
  request_createdAt : Z
}.

Record noteDoc : Type := mkNoteDoc {
  noteName : string;
  fileName : option string;
  originalName : string;
  isPublic : bool;
  uploadedBy : option string;
  downloadURL : string;
  storagePath : string;
  note_createdAt : Z;
  updatedAt : option Z
}.

Record store : Type := mkStore {
  usersCol : gmap string userDoc;
  requestsCol : gmap string requestDoc;
  notesCol : gmap string noteDoc;
  publicNotesCol : gmap string noteDoc
}.

(** [usersCol.doc(uid).update({ ... })], field by field. *)
Definition with_request_sent (v : bool) (u : userDoc) : userDoc :=
  {| uid := uid u; email := email u; displayName := displayName u;
     is_validated := is_validated u; request_sent := v;
     last_score := last_score u; Board := Board u; ExamYEar := ExamYEar u;
     lastNotified := lastNotified u; user_createdAt := user_createdAt u;
     is_Admin := is_Admin u |}.

Definition with_is_validated (v : bool) (u : userDoc) : userDoc :=
  {| uid := uid u; email := email u; displayName := displayName u;
     is_validated := v; request_sent := request_sent u;
     last_score := last_score u; Board := Board u; ExamYEar := ExamYEar u;
     lastNotified := lastNotified u; user_createdAt := user_createdAt u;
     is_Admin := is_Admin u |}.

Definition with_last_score (v : Z) (u : userDoc) : userDoc :=
  {| uid := uid u; email := email u; displayName := displayName u;
     is_validated := is_validated u; request_sent := request_sent u;
     last_score := v; Board := Board u; ExamYEar := ExamYEar u;
     lastNotified := lastNotified u; user_createdAt := user_createdAt u;
     is_Admin := is_Admin u |}.

Definition with_lastNotified (v : option Z) (u : userDoc) : userDoc :=
  {| uid := uid u; email := email u; displayName := displayName u;
     is_validated := is_validated u; request_sent := request_sent u;
     last_score := last_score u; Board := Board u; ExamYEar := ExamYEar u;
     lastNotified := v; user_createdAt := user_createdAt u;
     is_Admin := is_Admin u |}.

(** The [update] object of [PUT /api/users/:uid], applied. *)
Definition with_profile (board : option string) (year : option Z)
    (admin : option bool) (u : userDoc) : userDoc :=
  {| uid := uid u; email := email u; displayName := displayName u;
     is_validated := is_validated u; request_sent := request_sent u;
     last_score := last_score u;
     Board := default (Board u) board;
     ExamYEar := default (ExamYEar u) year;
     lastNotified := lastNotified u; user_createdAt := user_createdAt u;
     is_Admin := default (is_Admin u) admin |}.

(** The [update] object of [PATCH /api/notes/:id], applied. *)
Definition with_note_update (name : option string) (by_ : option string)
    (public : option bool) (now : Z) (n : noteDoc) : noteDoc :=
  {| noteName := default (noteName n) name;
     fileName := fileName n;
     originalName := originalName n;
     isPublic := default (isPublic n) public;
     uploadedBy := match by_ with Some b => Some b | None => uploadedBy n end;
     downloadURL := downloadURL n;
     storagePath := storagePath n;
     note_createdAt := note_createdAt n;
     updatedAt := Some now |}.

(** [Number(x) || 0] *)
Definition number_or_0 (n : jsnum) : Z :=
  match n with
  | Num z => z
  | NaN => 0
  end.

(** [x || null] and [x || fallback], for a string that may be missing. *)
Definition truthy (x : option string) : option string :=
  match x with
  | Some s => if String.eqb s "" then None else Some s
  | None => None
  end.

(** The requests the routes serve; the ids that [doc()] draws for new
    documents are part of the request. *)
Inductive action : Type :=
  | Register (uid email displayName : option string) (is_Admin : option bool)
  | UpdateScore (uid : string) (score : jsnum)
  | UpdateUser (uid : string) (Board : option string) (ExamYEar : option jsnum)
      (is_Admin : option bool)
  | TouchLastNotified (uid : string)
  | SubmitRequest (newId uid transactionId : string)
  | ApproveRequest (id : string)
  | RejectRequest (id : string)
  | UploadNote (newId : string) (noteName : option string) (originalname : string)
      (isPublic : bool) (uploadedBy : option string) (downloadURL storagePath : string)
  | PatchNote (id : string) (noteName : option string) (isPublic : option bool)
      (uploadedBy : option string)
  | DeleteNote (id : string).

Definition set_users (d : store) (m : gmap string userDoc) : store :=
  {| usersCol := m; requestsCol := requestsCol d;
     notesCol := notesCol d; publicNotesCol := publicNotesCol d |}.

Definition set_users_requests (d : store) (m : gmap string userDoc)
    (rq : gmap string requestDoc) : store :=
  {| usersCol := m; requestsCol := rq;
     notesCol := notesCol d; publicNotesCol := publicNotesCol d |}.

Definition set_notes (d : store) (m mirror : gmap string noteDoc) : store :=
  {| usersCol := usersCol d; requestsCol := requestsCol d;
     notesCol := m; publicNotesCol := mirror |}.

(** [POST /api/register] *)
Definition register (now : Z) (uid_ email_ displayName_ : option string)
    (is_Admin_ : option bool) (d : store) : Z * store :=
  match truthy uid_, truthy email_ with
  | Some id, Some mail =>
      match usersCol d !! id with
      | Some _ => (400, d)
      | None =>
          (201, set_users d
                  (<[id := {| uid := id; email := mail;
                              displayName := truthy displayName_;
                              is_validated := false; request_sent := false;
                              last_score := 0; Board := "none"; ExamYEar := 0;
                              lastNotified := None; user_createdAt := now;
                              is_Admin := default false is_Admin_ |}]>
                     (usersCol d)))
      end
  | _, _ => (400, d)
  end.

(** [PUT /api/users/:uid/score] *)
Definition updateScore (id : string) (score : jsnum) (d : store) : Z * store :=
  match usersCol d !! id with
  | None => (404, d)
  | Some u => (200, set_users d (<[id := with_last_score (number_or_0 score) u]> (usersCol d)))
  end.

(** [PUT /api/users/:uid]; [currentYear] is [new Date().getFullYear()].  An
    [update] without any field makes [ref.update] throw. *)
Definition updateUser (currentYear : Z) (id : string) (board : option string)
    (year : option jsnum) (admin : option bool) (d : store) : Z * store :=
  let board' := (λ b, match truthy (Some (trim b)) with
                      | Some t => t
                      | None => "none"
                      end) <$> board in
  let year' := number_or_0 <$> year in
  if match year' with
     | Some yearNum =>
         (negb (yearNum =? 0)
          && ((yearNum <? 1980) || (currentYear + 1 <? yearNum)))%bool
     | None => false
     end
  then (400, d)
  else
    match usersCol d !! id with
    | None => (404, d)
    | Some u =>
        match board', year', admin with
        | None, None, None => (500, d)
        | _, _, _ =>
            (200, set_users d (<[id := with_profile board' year' admin u]> (usersCol d)))
        end
    end.

(** [PUT /api/users/:uid/last-notified] *)
Definition touchLastNotified (now : Z) (id : string) (d : store) : Z * store :=
  match usersCol d !! id with
  | None => (404, d)
  | Some u => (200, set_users d (<[id := with_lastNotified (Some now) u]> (usersCol d)))
  end.

(** [POST /api/requests]; [usersCol.doc("")] throws. *)
Definition submitRequest (now : Z) (newId id transaction : string) (d : store)
    : Z * store :=
  if String.eqb id "" then (500, d)
  else
    match usersCol d !! id with
    | None => (404, d)
    | Some u =>
        if request_sent u then (400, d)
        else
          (201, set_users_requests d
                  (<[id := with_request_sent true u]> (usersCol d))
                  (<[newId := {| request_uid := id; transactionId := transaction;
                                 request_createdAt := now |}]> (requestsCol d)))
    end.

(** [PUT /api/requests/approve/:id] *)
Definition approveRequest (id : string) (d : store) : Z * store :=
  match requestsCol d !! id with
  | None => (404, d)
  | Some rq =>
      match (if String.eqb (request_uid rq) "" then None
             else usersCol d !! request_uid rq) with
      | None => (500, d)
      | Some u =>
          (200, set_users_requests d
                  (<[request_uid rq := with_request_sent false (with_is_validated true u)]>
                     (usersCol d))
                  (delete id (requestsCol d)))
      end
  end.

(** [PUT /api/requests/reject/:id] *)
Definition rejectRequest (id : string) (d : store) : Z * store :=
  match requestsCol d !! id with
  | None => (404, d)
  | Some rq =>
      match (if String.eqb (request_uid rq) "" then None
             else usersCol d !! request_uid rq) with
      | None => (500, d)
      | Some u =>
          (200, set_users_requests d
                  (<[request_uid rq := with_request_sent false u]> (usersCol d))
                  (delete id (requestsCol d)))
      end
  end.

(** [POST /api/upload], from the batch on: the file is in the bucket under
    [storagePath_] and [downloadURL_] is its signed URL. *)
Definition uploadNote (now : Z) (newId : string) (noteName_ : option string)
    (originalname : string) (isPublic_ : bool) (uploadedBy_ : option string)
    (downloadURL_ storagePath_ : string) (d : store) : Z * store :=
  let payload :=
    {| noteName := match truthy noteName_ with
                   | Some name => name
                   | None => originalname
                   end;
       fileName := None;
       originalName := originalname;
       isPublic := isPublic_;
       uploadedBy := truthy uploadedBy_;
       downloadURL := downloadURL_;
       storagePath := storagePath_;
       note_createdAt := now;
       updatedAt := None |} in
  (201, set_notes d (<[newId := payload]> (notesCol d))
          (if isPublic payload then <[newId := payload]> (publicNotesCol d)
           else publicNotesCol d)).

(** [PATCH /api/notes/:id] *)
Definition patchNote (now : Z) (id : string) (noteName_ : option string)
    (isPublic_ : option bool) (uploadedBy_ : option string) (d : store)
    : Z * store :=
  match notesCol d !! id with
  | None => (404, d)
  | Some prev =>
      let update := with_note_update noteName_ uploadedBy_ isPublic_ now in
      let newIsPublic := default (isPublic prev) isPublic_ in
      let notes' := <[id := update prev]> (notesCol d) in
      if (newIsPublic && negb (isPublic prev))%bool
      then (200, set_notes d notes' (<[id := update prev]> (publicNotesCol d)))
      else if (negb newIsPublic && isPublic prev)%bool
      then (200, set_notes d notes' (delete id (publicNotesCol d)))
      else if (newIsPublic && isPublic prev)%bool
      then
        match publicNotesCol d !! id with
        | Some mirrored =>
            (200, set_notes d notes' (<[id := update mirrored]> (publicNotesCol d)))
        | None => (500, d)
        end
      else (200, set_notes d notes' (publicNotesCol d))
  end.

(** [DELETE /api/notes/:id], up to the clean-up of the bucket. *)
Definition deleteNote (id : string) (d : store) : Z * store :=
  match notesCol d !! id with
  | None => (404, d)
  | Some _ =>
      (200, set_notes d (delete id (notesCol d)) (delete id (publicNotesCol d)))
  end.

(** The server at work: one request at a time. *)
Definition serve (now currentYear : Z) (a : action) (d : store) : Z * store :=
  match a with
  | Register u e n adm => register now u e n adm d
  | UpdateScore u score => updateScore u score d
  | UpdateUser u b y adm => updateUser currentYear u b y adm d
  | TouchLastNotified u => touchLastNotified now u d
  | SubmitRequest newId u t => submitRequest now newId u t d
  | ApproveRequest id => approveRequest id d
  | RejectRequest id => rejectRequest id d
  | UploadNote newId n o p by_ url path => uploadNote now newId n o p by_ url path d
  | PatchNote id n p by_ => patchNote now id n p by_ d
  | DeleteNote id => deleteNote id d
  end.

(** The id drawn by [doc()] for a new document is not the id of a document
    of the collection. *)
Definition freshIds (a : action) (d : store) : Prop :=
  match a with
  | SubmitRequest newId _ _ => requestsCol d !! newId = None
  | UploadNote newId _ _ _ _ _ _ => notesCol d !! newId = None
  | _ => True
  end.

(** The stores the server can be in: it starts with empty collections and
    serves requests one after the other. *)
Inductive reachable : store → Prop :=
  | reachable_empty : reachable (mkStore ∅ ∅ ∅ ∅)
  | reachable_serve now currentYear a d :
      reachable d → freshIds a d → reachable (serve now currentYear a d).2.

(** The mirror of the public notes is in step with the notes: it holds
    exactly the notes that are public, as they are. *)
Definition mirrorInSync (d : store) : Prop :=
  ∀ id, publicNotesCol d !! id
        = match notesCol d !! id with
          | Some n => if isPublic n then Some n else None
          | None => None
          end.

(** Pending requests and the [request_sent] flags agree: every request is
    the request of a user whose flag is set, no user has two requests, and
    every user whose flag is set has a request. *)
Definition requestsConsistent (d : store) : Prop :=
  (∀ id rq, requestsCol d !! id = Some rq →
     request_uid rq ≠ ""
     ∧ ∃ u, usersCol d !! request_uid rq = Some u ∧ request_sent u = true)
  ∧ (∀ id1 id2 rq1 rq2,
       requestsCol d !! id1 = Some rq1 → requestsCol d !! id2 = Some rq2 →
       request_uid rq1 = request_uid rq2 → id1 = id2)
  ∧ (∀ id u, usersCol d !! id = Some u → request_sent u = true →
       ∃ rid rq, requestsCol d !! rid = Some rq ∧ request_uid rq = id).

(** [GET /api/notes]: [uid_] is the [uid] of the query when it is a string,
    [docs] the documents of the notes collection in the order of a snapshot;
    [where("isPublic", "==", true)] keeps the public ones, in that order. *)
Definition listNotes (users : gmap string userDoc) (docs : list (string * noteDoc))
    (uid_ : option string) : list (string * noteDoc) :=
  let isValidated :=
    match truthy uid_ with
    | Some id => match users !! id with
                 | Some u => is_validated u
                 | None => false
                 end
    | None => false
    end in
  let snap := if isValidated then docs
              else List.filter (λ d, isPublic d.2) docs in
  sort_by (λ d, - note_createdAt d.2) snap.

(** * More samples *)

Module Fixtures.

(** The origin of a request to the public API. *)
Definition web : origin :=
  {| protocol := "https"; host := Some "api.example.org" |}.

(** A question with four options, the last one correct. *)
Definition fourOptions : questionDoc :=
  {| doc_text := Some "Which one?"; doc_options := ["a"; "b"; "c"; "d"];
     doc_correctAnswer := 3; doc_image := None; doc_setId := None;
     doc_setOrder := 0; doc_createdAt := 0 |}.

(** A body that adds a question with two options. *)
Definition twoOptions : newQuestionBody :=
  {| new_text := Some "Yes or no?"; new_options := Options ["yes"; "no"];
     new_correctAnswer := Integer 1; new_image := Some " /img/q.png ";
     new_setId := Some ""; new_setOrder := None |}.

(** An update that shortens the options and says nothing of the answer. *)
Definition shorten : questionUpdate :=
  {| upd_text := None; upd_options := Some (Options ["x"; "y"]);
     upd_correctAnswer := None; upd_image := None; upd_setId := None;
     upd_setOrder := None |}.

Definition emptyStore : store := mkStore ∅ ∅ ∅ ∅.

(** One public note uploaded. *)
Definition oneNote : store :=
  (serve 1000 2026
     (UploadNote "n1" None "algebra.pdf" true (Some "teacher") "https://files/n1"
        "notes/n1.pdf")
     emptyStore).2.

(** A user registered. *)
Definition registered : store :=
  (serve 1000 2026 (Register (Some "u1") (Some "u1@example.org") None None)
     emptyStore).2.

(** The user has sent a validation request. *)
Definition pending : store :=
  (serve 1001 2026 (SubmitRequest "r1" "u1" "TX-42") registered).2.

(** The request has been approved. *)
Definition approved : store :=
  (serve 1002 2026 (ApproveRequest "r1") pending).2.

End Fixtures.

(** * Properties *)

(** ** The outcomes of [shuffle] *)

Section Shuffle.
Context {A : Type}.
Implicit Types (l arr : list A) (draws : list nat).

Lemma insert_at_Permutation i (x : A) l : insert_at i x l ≡ₚ x :: l.
Proof.
  revert i. induction l as [|y l IH]; intros [|i]; simpl; try reflexivity.
  rewrite IH. apply perm_swap.
Qed.

Lemma insert_at_middle (x : A) l1 l2 :
  insert_at (length l1) x (l1 ++ l2) = l1 ++ x :: l2.
Proof. induction l1 as [|y l1 IH]; simpl; [done|]. by rewrite IH. Qed.

Lemma shuffle_with_Permutation draws arr : shuffle_with draws arr ≡ₚ arr.
Proof.
  revert draws. induction arr as [|x arr IH]; intros draws; simpl; [done|].
  by rewrite insert_at_Permutation, IH.
Qed.

(** Every rearrangement of [arr] is the outcome of some draws. *)
Lemma shuffle_with_any arr l :
  arr ≡ₚ l → ∃ draws, length draws = length arr ∧ shuffle_with draws arr = l.
Proof.
  revert l. induction arr as [|x arr IH]; intros l Hp.
  - apply Permutation_nil in Hp. subst l. by exists [].
  - assert (x ∈ l) as Hx by (rewrite <- Hp; left).
    apply list_elem_of_split in Hx as (l1 & l2 & ->).
    apply Permutation_cons_app_inv in Hp.
    destruct (IH _ Hp) as (draws & Hlen & Hd).
    exists (length l1 :: draws). split; simpl; [by rewrite Hlen|].
    rewrite Hd. apply insert_at_middle.
Qed.

Lemma shuffle_with_length draws arr : length (shuffle_with draws arr) = length arr.
Proof. apply Permutation_length, shuffle_with_Permutation. Qed.

Lemma shuffle_Permutation arr (r : Rand) : (shuffle arr r).1 ≡ₚ arr.
Proof. apply shuffle_with_Permutation. Qed.

End Shuffle.

(** ** The stable sort *)

Section Sort.
Context {A : Type} (key : A → Z).
Implicit Types (l : list A).

Lemma sort_insert_Permutation x l : sort_insert key x l ≡ₚ x :: l.
Proof.
  induction l as [|y l IH]; simpl; [done|].
  destruct (key x <=? key y); [done|]. rewrite IH. apply perm_swap.
Qed.

Lemma sort_by_Permutation l : sort_by key l ≡ₚ l.
Proof.
  induction l as [|x l IH]; simpl; [done|].
  by rewrite sort_insert_Permutation, IH.
Qed.

Lemma sort_insert_sorted x l :
  StronglySorted (key_le key) l → StronglySorted (key_le key) (sort_insert key x l).
Proof.
  induction 1 as [|y l Hs IH Hall]; simpl.
  - repeat constructor.
  - destruct (Z.leb_spec (key x) (key y)) as [Hle|Hgt].
    + constructor; [by constructor|].
      constructor; [done|].
      eapply Forall_impl; [exact Hall|]. unfold key_le. intros; simpl in *; lia.
    + constructor; [done|].
      rewrite sort_insert_Permutation. constructor; [|done].
      unfold key_le. lia.
Qed.

Lemma sort_by_sorted l : StronglySorted (key_le key) (sort_by key l).
Proof.
  induction l as [|x l IH]; simpl; [constructor|].
  by apply sort_insert_sorted.
Qed.

(** Stability: the questions of one key keep the order they had. *)
Lemma sort_insert_stable k x l :
  StronglySorted (key_le key) l →
  List.filter (λ a, key a =? k) (sort_insert key x l)
  = List.filter (λ a, key a =? k) (x :: l).
Proof.
  induction 1 as [|y l Hs IH Hall]; [done|]. simpl.
  destruct (Z.leb_spec (key x) (key y)) as [Hle|Hgt]; [done|].
  simpl in *. rewrite IH.
  destruct (Z.eqb_spec (key x) k) as [Hx|Hx]; [|done].
  destruct (Z.eqb_spec (key y) k) as [Hy|Hy]; [lia|done].
Qed.

Lemma sort_by_stable k l :
  List.filter (λ a, key a =? k) (sort_by key l) = List.filter (λ a, key a =? k) l.
Proof.
  induction l as [|x l IH]; [done|]. simpl sort_by.
  rewrite sort_insert_stable by apply sort_by_sorted.
  simpl. by rewrite IH.
Qed.

Lemma sort_by_nil l : sort_by key l = [] → l = [].
Proof.
  intros H. apply Permutation_nil. rewrite <- H. by rewrite sort_by_Permutation.
Qed.

(** The head of the sorted array is a smallest element of the array. *)
Lemma sort_by_head s rest l :
  sort_by key l = s :: rest → s ∈ l ∧ ∀ b, b ∈ l → key s ≤ key b.
Proof.
  intros H. pose proof (sort_by_Permutation l) as Hp.
  pose proof (sort_by_sorted l) as Hs. rewrite H in Hp, Hs.
  split; [rewrite <- Hp; left|].
  intros b Hb. rewrite <- Hp in Hb.
  apply StronglySorted_inv in Hs as [_ Hall].
  apply elem_of_cons in Hb as [->|Hb]; [lia|].
  rewrite Forall_forall in Hall. by apply Hall.
Qed.

End Sort.

(** ** [buildBlocksForExam] *)

Section BuildBlocks.
Implicit Types (q : question) (qs : list question) (k : string)
  (ids : list string) (groups : list (string * list question)).

Lemma group_ids_snoc qs q : group_ids (qs ++ [q]) = add_id (group_ids qs) q.
Proof. unfold group_ids. by rewrite fold_left_app. Qed.

Lemma group_ids_NoDup qs : NoDup (group_ids qs).
Proof.
  induction qs as [|q qs IH] using rev_ind; [constructor|].
  rewrite group_ids_snoc. unfold add_id.
  destruct (truthy_setId q) as [k|]; [|done].
  case_bool_decide as Hk; [done|].
  apply NoDup_app. split_and!; [done| |apply NoDup_singleton].
  intros x Hx ->%list_elem_of_singleton. done.
Qed.

Lemma elem_of_group_ids k qs :
  k ∈ group_ids qs ↔ ∃ q, q ∈ qs ∧ truthy_setId q = Some k.
Proof.
  induction qs as [|q qs IH] using rev_ind.
  - split; [by intros ?%elem_of_nil|by intros (? & ?%elem_of_nil & _)].
  - rewrite group_ids_snoc. unfold add_id.
    setoid_rewrite elem_of_app. setoid_rewrite list_elem_of_singleton.
    destruct (truthy_setId q) as [k'|] eqn:Hq.
    + case_bool_decide as Hk.
      * rewrite IH. split; [naive_solver|].
        intros (q' & [Hin| ->] & Hq'); [naive_solver|].
        apply IH. congruence.
      * rewrite elem_of_app, list_elem_of_singleton, IH. naive_solver.
    + rewrite IH. naive_solver.
Qed.

Lemma bucket_snoc k qs q :
  bucket k (qs ++ [q]) = bucket k qs ++ (if in_group k q then [q] else []).
Proof. unfold bucket. by rewrite List.filter_app. Qed.

Lemma bucket_fresh k qs : k ∉ group_ids qs → bucket k qs = [].
Proof.
  intros Hk. unfold bucket.
  induction qs as [|q qs IH]; [done|]. simpl.
  destruct (in_group k q) eqn:Hq.
  - exfalso. apply Hk, elem_of_group_ids. exists q. split; [left|].
    unfold in_group in Hq. destruct (truthy_setId q) as [k'|]; [|done].
    by apply String.eqb_eq in Hq as ->.
  - apply IH. intros Hin. apply Hk.
    apply elem_of_group_ids in Hin as (q' & ? & ?).
    apply elem_of_group_ids. exists q'. split; [by right|done].
Qed.

(** [groups_push] on a [Map] whose keys are pairwise distinct. *)
Lemma groups_push_fmap k q ids (F : string → list question) :
  NoDup ids →
  groups_push k q ((λ k', (k', F k')) <$> ids)
  = ((λ k', (k', F k' ++ if String.eqb k k' then [q] else [])) <$> ids)
    ++ (if bool_decide (k ∈ ids) then [] else [(k, [q])]).
Proof.
  induction 1 as [|k0 ids Hk0 Hnd IH]; [done|]. csimpl.
  destruct (String.eqb_spec k k0) as [->|Hne].
  - rewrite bool_decide_eq_true_2 by left. rewrite app_nil_r. f_equal.
    apply list_fmap_ext. intros _ k' Hk'%list_elem_of_lookup_2.
    destruct (String.eqb_spec k0 k') as [->|_]; [done|by rewrite app_nil_r].
  - rewrite IH, (app_nil_r (F k0)). do 2 f_equal.
    assert (k ∈ ids ↔ k ∈ k0 :: ids) as Hiff
      by (rewrite elem_of_cons; intuition congruence).
    by rewrite (bool_decide_ext _ _ Hiff).
Qed.

(** The state of the grouping loop after the whole collection. *)
Lemma bucket_loop qs :
  fold_left bucket_step qs ([], [])
  = ((λ k, (k, bucket k qs)) <$> group_ids qs,
     (λ q, [q]) <$> List.filter ungrouped qs).
Proof.
  induction qs as [|q qs IH] using rev_ind; [done|].
  rewrite fold_left_app, IH. simpl. unfold bucket_step.
  rewrite group_ids_snoc, List.filter_app. unfold add_id. simpl.
  destruct (truthy_setId q) as [k|] eqn:Hq.
  - assert (ungrouped q = false) as -> by (unfold ungrouped; by rewrite Hq).
    rewrite app_nil_r. f_equal.
    rewrite groups_push_fmap by apply group_ids_NoDup.
    assert (∀ k', (bucket k' qs ++ if String.eqb k k' then [q] else [])
                  = bucket k' (qs ++ [q])) as Hb.
    { intros k'. rewrite bucket_snoc. unfold in_group. by rewrite Hq. }
    erewrite list_fmap_ext; [|intros ? k' _; by rewrite Hb].
    case_bool_decide as Hk; [by rewrite app_nil_r|].
    rewrite fmap_app. f_equal. simpl.
    rewrite <- Hb, String.eqb_refl. by rewrite bucket_fresh.
  - assert (ungrouped q = true) as -> by (unfold ungrouped; by rewrite Hq).
    rewrite fmap_app. f_equal.
    apply list_fmap_ext. intros _ k' _. rewrite bucket_snoc.
    unfold in_group. by rewrite Hq, app_nil_r.
Qed.

Lemma buildBlocksForExam_eq (e : exam) :
  buildBlocksForExam e
  = ((λ k, sort_by orderKey (bucket k (questions e))) <$> group_ids (questions e))
    ++ ((λ q, [q]) <$> List.filter ungrouped (questions e)).
Proof.
  unfold buildBlocksForExam. rewrite bucket_loop.
  f_equal. by rewrite <- list_fmap_compose.
Qed.

(** The grouping loop moves every question into exactly one array. *)
Lemma groups_push_flat k q groups :
  mjoin (snd <$> groups_push k q groups) ≡ₚ mjoin (snd <$> groups) ++ [q].
Proof.
  induction groups as [|[k' arr] groups IH]; [done|]. simpl.
  destruct (String.eqb k k'); csimpl.
  - rewrite <- !(assoc_L (++)). apply Permutation_app_head, Permutation_app_comm.
  - by rewrite IH, (assoc_L (++)).
Qed.

Lemma bucket_loop_flat qs groups singles :
  let st := fold_left bucket_step qs (groups, singles) in
  mjoin (snd <$> st.1) ++ mjoin st.2 ≡ₚ (mjoin (snd <$> groups) ++ mjoin singles) ++ qs.
Proof.
  revert groups singles. induction qs as [|q qs IH]; intros groups singles; simpl.
  - by rewrite app_nil_r.
  - destruct (truthy_setId q) as [k|].
    + rewrite (IH (groups_push k q groups) singles), groups_push_flat.
      rewrite <- !(assoc_L (++)). simpl. by rewrite <- !Permutation_middle.
    + rewrite (IH groups (singles ++ [[q]])), join_app. simpl.
      rewrite <- !(assoc_L (++)). simpl. by rewrite <- !Permutation_middle.
Qed.

Lemma buildBlocksForExam_Permutation (e : exam) :
  mjoin (buildBlocksForExam e) ≡ₚ questions e.
Proof.
  pose proof (bucket_loop_flat (questions e) [] []) as Hflat.
  unfold buildBlocksForExam.
  destruct (fold_left bucket_step (questions e) ([], [])) as [groups singles].
  simpl in Hflat. rewrite join_app, <- Hflat.
  apply Permutation_app_tail.
  clear Hflat. induction groups as [|[k arr] groups IH]; [done|]. csimpl.
  by rewrite sort_by_Permutation, IH.
Qed.

Lemma buildBlocksForExam_nonempty (e : exam) (b : block) :
  b ∈ buildBlocksForExam e → b ≠ [].
Proof.
  rewrite buildBlocksForExam_eq, elem_of_app, !list_elem_of_fmap.
  intros [(k & -> & Hk)|(q & -> & _)]; [|done].
  intros Hnil%sort_by_nil.
  apply elem_of_group_ids in Hk as (q & Hq & Hqk).
  assert (q ∈ bucket k (questions e)) as Hin; [|by rewrite Hnil in Hin; apply elem_of_nil in Hin].
  apply list_elem_of_In, filter_In. split; [by apply list_elem_of_In|].
  unfold in_group. rewrite Hqk. apply String.eqb_refl.
Qed.

End BuildBlocks.

(** ** [pickBlocks] *)

Section PickBlocks.
Implicit Types (b : block) (blocks pool picked : list block) (target : Z).

Lemma len_app (l1 l2 : list question) : len (l1 ++ l2) = len l1 + len l2.
Proof. unfold len. rewrite length_app. lia. Qed.

Lemma len_nonneg (l : list question) : 0 ≤ len l.
Proof. unfold len. lia. Qed.

Lemma questionCount_app bs1 bs2 :
  questionCount (bs1 ++ bs2) = questionCount bs1 + questionCount bs2.
Proof. unfold questionCount. by rewrite join_app, len_app. Qed.

Lemma questionCount_cons b bs : questionCount (b :: bs) = len b + questionCount bs.
Proof. unfold questionCount. simpl. by rewrite len_app. Qed.

(** The greedy walk: what it has picked is a subsequence of the pool, and
    [count] is the number of questions picked, within the target. *)
Lemma pick_loop target pool picked0 count0 :
  ∃ sub,
    fold_left (pick_step target) pool (picked0, count0)
      = (picked0 ++ sub, count0 + questionCount sub)
    ∧ sub `sublist_of` pool
    ∧ (count0 ≤ target → count0 + questionCount sub ≤ target)
    ∧ (sub = [] → Forall (λ b, target < count0 + len b) pool).
Proof.
  revert picked0 count0.
  induction pool as [|b pool IH]; intros picked0 count0; simpl.
  - exists []. rewrite app_nil_r. unfold questionCount, len. simpl.
    split_and!; [f_equal; lia|done|lia|done].
  - destruct (Z.leb_spec (count0 + len b) target) as [Hfit|Hover].
    + destruct (IH (picked0 ++ [b]) (count0 + len b)) as (sub & -> & Hsub & Hle & _).
      exists (b :: sub). rewrite questionCount_cons, <- (assoc_L (++)).
      split_and!; [f_equal; lia|by constructor|lia|done].
    + destruct (IH picked0 count0) as (sub & -> & Hsub & Hle & Hnone).
      exists sub. split_and!; [done|by constructor|done|].
      intros Hnil. constructor; [lia|auto].
Qed.

(** [pickBlocks] for a positive target, with the loop written as a value. *)
Lemma pickBlocks_positive blocks target (r : Rand) :
  0 < target →
  let pool := shuffle_with r blocks in
  let picked := (fold_left (pick_step target) pool ([], 0)).1 in
  pickBlocks blocks target r
  = (match picked, sort_by len pool with
     | [], smallest :: _ => [smallest]
     | _, _ => picked
     end, skipn (length blocks) r).
Proof.
  intros Hpos. unfold pickBlocks, bind, shuffle, ret. simpl.
  destruct (Z.leb_spec target 0) as [?|_]; [lia|].
  destruct (fold_left _ _ _) as [picked cnt]. simpl.
  assert ((0 <? target) = true) as -> by (apply Z.ltb_lt; lia).
  rewrite andb_true_r.
  destruct picked as [|b picked]; simpl.
  - destruct (shuffle_with r blocks) as [|b0 pool] eqn:Hpool; [done|].
    simpl. by destruct (sort_insert len b0 (sort_by len pool)).
  - done.
Qed.

Lemma pickBlocks_nonpositive blocks target (r : Rand) :
  target ≤ 0 → pickBlocks blocks target r = ([], r).
Proof.
  intros Hle. unfold pickBlocks.
  by destruct (Z.leb_spec target 0) as [_|?]; [|lia].
Qed.

(** What [pickBlocks] returns is taken from [blocks], each block at most
    as often as it is there. *)
Lemma pickBlocks_submseteq blocks target (r : Rand) :
  (pickBlocks blocks target r).1 ⊆+ blocks.
Proof.
  destruct (Z.le_gt_cases target 0) as [Hle|Hpos].
  { rewrite pickBlocks_nonpositive by done. apply submseteq_nil_l. }
  rewrite pickBlocks_positive by lia. simpl.
  destruct (pick_loop target (shuffle_with r blocks) [] 0)
    as (sub & -> & Hsub & _ & _). simpl.
  etrans; [|apply Permutation_submseteq, (shuffle_with_Permutation r)].
  destruct sub as [|b sub]; [|by apply sublist_submseteq].
  destruct (sort_by len (shuffle_with r blocks)) as [|s rest] eqn:Hs.
  { apply submseteq_nil_l. }
  apply sort_by_head in Hs as [Hin _].
  apply singleton_submseteq_l, Hin.
Qed.

End PickBlocks.

(** ** The loop over the exams *)

Section CollectBlocks.
Implicit Types (exams : list exam) (allBlocks : list block) (r : Rand).

Lemma all_blocks_cons e exams :
  all_blocks (e :: exams) = buildBlocksForExam e ++ all_blocks exams.
Proof. done. Qed.

Lemma all_blocks_Permutation exams :
  mjoin (all_blocks exams) ≡ₚ all_questions exams.
Proof.
  induction exams as [|e exams IH]; [done|].
  rewrite all_blocks_cons, join_app, IH.
  unfold all_questions. csimpl.
  by rewrite buildBlocksForExam_Permutation.
Qed.

Lemma all_blocks_nonempty exams b : b ∈ all_blocks exams → b ≠ [].
Proof.
  unfold all_blocks. rewrite list_elem_of_join.
  intros (bs & Hb & (e & -> & _)%list_elem_of_fmap).
  by eapply buildBlocksForExam_nonempty.
Qed.

(** The blocks collected over all exams are blocks built from the exams,
    none of them taken more often than it was built. *)
Lemma collectBlocks_submseteq base exams allBlocks r :
  ∃ chosen,
    (collectBlocks base exams allBlocks r).1 = allBlocks ++ chosen
    ∧ chosen ⊆+ all_blocks exams.
Proof.
  revert allBlocks r.
  induction exams as [|e exams IH]; intros allBlocks r; simpl.
  - exists []. by rewrite app_nil_r.
  - unfold bind.
    pose proof (pickBlocks_submseteq (buildBlocksForExam e) (targetCount base e) r) as Hsub.
    destruct (pickBlocks _ _ r) as [chosenBlocks r'].
    destruct (IH (allBlocks ++ chosenBlocks) r') as (chosen & -> & Hchosen).
    exists (chosenBlocks ++ chosen).
    split; [by rewrite (assoc_L (++))|].
    rewrite all_blocks_cons. by apply submseteq_app.
Qed.

End CollectBlocks.

(** ** The final walk *)

Section TrimLoop.
Implicit Types (b : block) (pool : list block) (finalQuestions : list question).

(** The walk appends whole blocks of the pool, in the order of the pool. *)
Lemma trimLoop_accepts max pool finalQuestions used :
  ∃ accepted,
    trimLoop max pool finalQuestions used = finalQuestions ++ mjoin accepted
    ∧ accepted `sublist_of` pool.
Proof.
  revert finalQuestions used.
  induction pool as [|b pool IH]; intros finalQuestions used; simpl.
  - exists []. by rewrite app_nil_r.
  - destruct (used + len b <=? max).
    + destruct (IH (finalQuestions ++ b) (used + len b)) as (accepted & -> & Hsub).
      exists (b :: accepted). split; [by rewrite <- (assoc_L (++))|by constructor].
    + destruct (used =? 0).
      * exists [b]. simpl. rewrite app_nil_r.
        split; [done|]. constructor. apply sublist_nil_l.
      * destruct (IH finalQuestions used) as (accepted & -> & Hsub).
        exists accepted. split; [done|by constructor].
Qed.

(** Without the fallback the walk stays within [max]; with it, the result
    is the one block that did not fit. *)
Lemma trimLoop_bound max pool finalQuestions used :
  used = len finalQuestions → used ≤ max →
  if trimFallback max pool used
  then ∃ b, b ∈ pool ∧ max < len b
            ∧ trimLoop max pool finalQuestions used = b
  else len (trimLoop max pool finalQuestions used) ≤ max.
Proof.
  revert finalQuestions used.
  induction pool as [|b pool IH]; intros finalQuestions used Hused Hle; simpl.
  - lia.
  - destruct (Z.leb_spec (used + len b) max) as [Hfit|Hover].
    + specialize (IH (finalQuestions ++ b) (used + len b)).
      rewrite len_app in IH. specialize (IH ltac:(lia) Hfit).
      destruct (trimFallback max pool (used + len b)); [|done].
      destruct IH as (b' & Hb' & Hbig & Heq).
      exists b'. split_and!; [by right|done|done].
    + destruct (Z.eqb_spec used 0) as [->|Hne].
      * exists b. assert (finalQuestions = []) as ->.
        { apply length_zero_iff_nil. unfold len in Hused. lia. }
        split_and!; [left|lia|done].
      * specialize (IH finalQuestions used Hused Hle).
        destruct (trimFallback max pool used); [|done].
        destruct IH as (b' & Hb' & Hbig & Heq).
        exists b'. split_and!; [by right|done|done].
Qed.

(** Once a question has been accepted the walk is the walk of the
    specification. *)
Lemma trimLoop_fitWalk max pool finalQuestions used :
  0 < used →
  trimLoop max pool finalQuestions used
  = finalQuestions ++ mjoin (fitWalk max pool used).
Proof.
  revert finalQuestions used.
  induction pool as [|b pool IH]; intros finalQuestions used Hused; simpl.
  - by rewrite app_nil_r.
  - pose proof (len_nonneg b).
    destruct (Z.leb_spec (used + len b) max) as [Hfit|Hover].
    + simpl. rewrite (assoc_L (++)). apply IH. lia.
    + destruct (Z.eqb_spec used 0) as [?|_]; [lia|]. by apply IH.
Qed.

Lemma len_pos b : b ≠ [] → 0 < len b.
Proof. unfold len. destruct b; [done|simpl; lia]. Qed.

(** The whole walk: the first block decides. *)
Lemma trimLoop_first max pool :
  Forall (λ b, b ≠ []) pool →
  trimLoop max pool [] 0
  = match pool with
    | [] => []
    | b :: _ => if len b <=? max then mjoin (fitWalk max pool 0) else b
    end.
Proof.
  intros Hne. destruct Hne as [|b pool Hb Hne]; [done|]. simpl.
  rewrite !Z.add_0_l.
  destruct (Z.leb_spec (len b) max) as [Hfit|Hover]; [|done].
  rewrite trimLoop_fitWalk by (by apply len_pos). done.
Qed.

End TrimLoop.

(** ** The handler *)

(** Blocks that share no question identifier are told apart by any one of
    their questions. *)
Lemma disjoint_blocks_eq (bs : list block) (b b' : block) (q q' : question) :
  NoDup (ids (mjoin bs)) →
  b ∈ bs → b' ∈ bs → q ∈ b → q' ∈ b' → qid q = qid q' → b = b'.
Proof.
  unfold ids. induction bs as [|b0 bs IH]; intros Hnd Hb Hb' Hq Hq' Hid.
  { by apply elem_of_nil in Hb. }
  simpl in Hnd. rewrite fmap_app in Hnd.
  apply NoDup_app in Hnd as (_ & Hdisj & Hnd).
  assert (∀ (c c' : block) (x x' : question),
            x ∈ c → c = b0 → x' ∈ c' → c' ∈ bs → qid x = qid x' → False) as Hcross.
  { intros c c' x x' Hx -> Hx' Hc' Hxx'.
    apply (Hdisj (qid x)); [by apply list_elem_of_fmap_2|].
    rewrite Hxx'. apply list_elem_of_fmap_2, list_elem_of_join. eauto. }
  apply elem_of_cons in Hb as [->|Hb], Hb' as [->|Hb']; [done| | |by apply IH].
  - exfalso. by eapply (Hcross b0 b' q q').
  - exfalso. by eapply (Hcross b0 b q' q).
Qed.

Lemma submseteq_NoDup {A} (l k : list A) : l ⊆+ k → NoDup k → NoDup l.
Proof.
  intros (k' & Hk)%submseteq_Permutation Hnd. rewrite Hk in Hnd.
  by apply NoDup_app in Hnd as (? & _ & _).
Qed.

Section HandlerProperties.
Variable toAbsoluteImageUrl : option string → option string.
Implicit Types (req : request) (exams : list exam) (r : Rand).

(** The handler, from the pool on. *)
Lemma assemble_eq req exams r :
  assemble toAbsoluteImageUrl req exams r
  = (let pool := (shuffledPool (effective_base req) exams r).1 in
     let normalized :=
       normalize toAbsoluteImageUrl (query_absoluteImages req)
         <$> trimLoop (effective_max req) pool [] 0 in
     {| r_base := effective_base req; r_max := effective_max req;
        r_count := Z.of_nat (length normalized);
        r_questions := normalized |},
     (shuffledPool (effective_base req) exams r).2).
Proof.
  unfold assemble, shuffledPool, bind, ret.
  destruct (collectBlocks _ _ _ r) as [allBlocks r']. by destruct (shuffle allBlocks r').
Qed.

(** Once the exams are fetched the handler answers 200. *)
Lemma assembled_fetched req exams r :
  (assembled toAbsoluteImageUrl req (Some exams) r).1
  = Http200 (assemble toAbsoluteImageUrl req exams r).1.
Proof.
  unfold assembled, bind, ret.
  by destruct (assemble toAbsoluteImageUrl req exams r).
Qed.

Local Abbreviation normalize := (normalize toAbsoluteImageUrl).
Local Abbreviation assemble := (assemble toAbsoluteImageUrl).
Local Abbreviation assembled := (assembled toAbsoluteImageUrl).

Lemma normalize_qid a (q : question) : qid (normalize a q) = qid q.
Proof. by destruct a. Qed.

Lemma ids_normalize a (qs : list question) : ids (normalize a <$> qs) = ids qs.
Proof.
  unfold ids. rewrite <- list_fmap_compose.
  apply list_fmap_ext. intros _ q _. apply normalize_qid.
Qed.

Lemma shuffledPool_submseteq base exams r :
  (shuffledPool base exams r).1 ⊆+ all_blocks exams.
Proof.
  unfold shuffledPool, bind.
  destruct (collectBlocks_submseteq base exams [] r) as (chosen & Heq & Hsub).
  destruct (collectBlocks _ _ _ r) as [allBlocks r']. simpl in *. subst.
  etrans; [|exact Hsub].
  apply Permutation_submseteq, shuffle_with_Permutation.
Qed.

(** The response lists whole blocks: its questions are the blocks the walk
    accepted, one after the other, and these are blocks built from the
    exams, none accepted more often than it was built. *)
Lemma assemble_whole_blocks req exams r :
  ∃ accepted,
    accepted ⊆+ all_blocks exams
    ∧ r_questions (assemble req exams r).1
      = normalize (query_absoluteImages req) <$> mjoin accepted.
Proof.
  rewrite assemble_eq. simpl.
  destruct (trimLoop_accepts (effective_max req)
              (shuffledPool (effective_base req) exams r).1 [] 0)
    as (accepted & -> & Hsub).
  exists accepted. split; [|done].
  etrans; [by apply sublist_submseteq|apply shuffledPool_submseteq].
Qed.

(** No question is returned more often than the exams hold it. *)
Lemma assemble_ids_submseteq req exams r :
  ids (r_questions (assemble req exams r).1) ⊆+ ids (all_questions exams).
Proof.
  destruct (assemble_whole_blocks req exams r) as (accepted & Hsub & ->).
  rewrite ids_normalize. unfold ids. rewrite <- all_blocks_Permutation.
  apply fmap_submseteq. rewrite !list_join_bind. by apply bind_submseteq.
Qed.

End HandlerProperties.

(** * The properties of the specification *)

Lemma positive_or_pos (n : jsnum) (default : Z) :
  0 < default → 0 < positive_or n default.
Proof.
  intros Hd. destruct n as [|z]; simpl; [done|].
  by destruct (Z.ltb_spec 0 z).
Qed.

Section AssemblyProperties.
Variable toAbsoluteImageUrl : option string → option string.
Implicit Types (req : request) (exams : list exam) (r : Rand).

Local Abbreviation normalize := (normalize toAbsoluteImageUrl).
Local Abbreviation assemble := (assemble toAbsoluteImageUrl).
Local Abbreviation assembled := (assembled toAbsoluteImageUrl).

(** C1 (no-split invariant).  The returned list is made of whole blocks: it
    is the blocks the walk accepted, one after the other, each of them a
    block built from an exam and none accepted more often than it was built.
    So, the fetched questions having pairwise distinct identifiers, every
    block built from an exam is all-or-nothing in the returned list: either
    each of its questions is returned, or none of them is.  This holds for
    every request and whatever the shuffles draw. *)
Theorem no_split req exams r :
  (∃ accepted,
      accepted ⊆+ all_blocks exams
      ∧ r_questions (assemble req exams r).1
        = normalize (query_absoluteImages req) <$> mjoin accepted)
  ∧ (NoDup (ids (all_questions exams)) →
     ∀ e b, e ∈ exams → b ∈ buildBlocksForExam e →
       (∀ q, q ∈ b → qid q ∈ ids (r_questions (assemble req exams r).1))
       ∨ (∀ q, q ∈ b → qid q ∉ ids (r_questions (assemble req exams r).1))).
Proof.
  split; [apply assemble_whole_blocks|].
  intros Hnd e b He Hb.
  assert (b ∈ all_blocks exams) as Hall.
  { apply list_elem_of_join. exists (buildBlocksForExam e).
    split; [done|by apply list_elem_of_fmap_2]. }
  destruct (assemble_whole_blocks toAbsoluteImageUrl req exams r)
    as (accepted & Hsub & ->).
  rewrite ids_normalize.
  destruct (decide (Exists (λ q, qid q ∈ ids (mjoin accepted)) b)) as [Hex|Hno].
  - left. apply Exists_exists in Hex as (q0 & Hq0 & Hin).
    apply list_elem_of_fmap in Hin as (q' & Hid & Hq').
    apply list_elem_of_join in Hq' as (b' & Hq' & Hb').
    assert (b = b') as <-.
    { apply (disjoint_blocks_eq (all_blocks exams) b b' q0 q'); try done.
      - unfold ids. by rewrite all_blocks_Permutation.
      - by eapply elem_of_submseteq. }
    intros q Hq. apply list_elem_of_fmap_2, list_elem_of_join. eauto.
  - right. intros q Hq Hin. apply Hno, Exists_exists. eauto.
Qed.

(** C2 (global cap, modulo fallback).  Whatever the request and the shuffles,
    the returned count is at most the effective [max], unless the global
    fallback fired; then the response holds exactly one block, built from
    one of the exams, and that block is larger than [max]. *)
Theorem global_cap req exams r :
  let resp := (assemble req exams r).1 in
  let pool := (shuffledPool (r_base resp) exams r).1 in
  if trimFallback (r_max resp) pool 0
  then ∃ b, b ∈ all_blocks exams
            ∧ r_max resp < len b
            ∧ r_questions resp = normalize (query_absoluteImages req) <$> b
            ∧ r_count resp = len b
  else r_count resp ≤ r_max resp.
Proof.
  rewrite assemble_eq. simpl.
  set (pool := (shuffledPool (effective_base req) exams r).1).
  pose proof (positive_or_pos (query_max req) 100 ltac:(lia)) as Hmax.
  fold (effective_max req) in Hmax.
  pose proof (trimLoop_bound (effective_max req) pool [] 0 eq_refl ltac:(lia)) as Hb.
  destruct (trimFallback (effective_max req) pool 0).
  - destruct Hb as (b & Hin & Hbig & ->). exists b.
    split_and!; [|done|done|by rewrite length_fmap].
    eapply elem_of_submseteq; [exact Hin|apply shuffledPool_submseteq].
  - by rewrite length_fmap.
Qed.

(** C3, as the code has it (global walk).  The walk accepts every block that
    fits.  A block that would overflow is skipped, the walk going on to the
    blocks after it, once something has been accepted; a block that would
    overflow while nothing has been accepted yet is accepted at once and ends
    the walk.  So the first block of the shuffled pool decides: if it fits,
    the result is the walk of the specification over the whole pool; if it
    does not, the result is that block alone. *)
Theorem global_walk_first_block req exams r :
  let resp := (assemble req exams r).1 in
  let pool := (shuffledPool (r_base resp) exams r).1 in
  r_questions resp
  = normalize (query_absoluteImages req)
      <$> match pool with
          | [] => []
          | b :: _ =>
              if len b <=? r_max resp
              then mjoin (fitWalk (r_max resp) pool 0)
              else b
          end.
Proof.
  rewrite assemble_eq. simpl. f_equal.
  apply trimLoop_first, Forall_forall. intros b Hb.
  apply (all_blocks_nonempty exams).
  eapply elem_of_submseteq; [exact Hb|apply shuffledPool_submseteq].
Qed.

(** C10 (no duplication).  No question is returned more often than the
    fetched exams hold it: the identifiers of the returned questions are
    taken from those of the fetched questions, each at most as often as it
    is there.  So, the fetched questions having pairwise distinct
    identifiers, no question is returned twice.  This holds for every
    request and whatever the shuffles draw. *)
Theorem no_duplication req exams r :
  ids (r_questions (assemble req exams r).1) ⊆+ ids (all_questions exams)
  ∧ (NoDup (ids (all_questions exams)) →
     NoDup (ids (r_questions (assemble req exams r).1))).
Proof.
  split; [apply assemble_ids_submseteq|].
  apply submseteq_NoDup, assemble_ids_submseteq.
Qed.

End AssemblyProperties.

(** C4 (per-exam selection).  For a target of 0 or less the selection is
    empty.  For a positive target, whatever the shuffle draws: if the
    fallback fired, no block of the pool fitted the target and the selection
    is one block of the pool, of the smallest size found in the pool;
    otherwise the selected blocks hold at most [target] questions. *)
Theorem pickBlocks_contract (blocks : list block) (target : Z) (r : Rand) :
  let picked := (pickBlocks blocks target r).1 in
  if target <=? 0 then picked = []
  else if pickFallback blocks target r
       then Forall (λ b, target < len b) blocks
            ∧ ∃ b, picked = [b] ∧ b ∈ blocks
                   ∧ ∀ b', b' ∈ blocks → len b ≤ len b'
       else questionCount picked ≤ target.
Proof.
  simpl. destruct (Z.leb_spec target 0) as [Hle|Hpos].
  { by rewrite pickBlocks_nonpositive. }
  rewrite pickBlocks_positive by done. unfold pickFallback.
  destruct (Z.leb_spec target 0) as [?|_]; [lia|]. simpl.
  pose proof (shuffle_with_Permutation r blocks) as Hperm.
  destruct (pick_loop target (shuffle_with r blocks) [] 0)
    as (sub & -> & Hsub & Hcount & Hnone). simpl.
  assert ((0 <? target) = true) as -> by (apply Z.ltb_lt; lia).
  rewrite andb_true_r.
  destruct sub as [|b sub]; simpl.
  - destruct (shuffle_with r blocks) as [|b0 pool] eqn:Hpool; simpl.
    { unfold questionCount, len. simpl. lia. }
    destruct (sort_insert len b0 (sort_by len pool)) as [|s rest] eqn:Hs.
    { by apply (sort_by_nil len (b0 :: pool)) in Hs. }
    apply (sort_by_head len s rest (b0 :: pool)) in Hs as [Hin Hmin].
    split.
    + rewrite <- Hperm. eapply Forall_impl; [by apply Hnone|].
      intros b' ?; simpl in *; lia.
    + exists s. split_and!; [done|by rewrite <- Hperm|].
      intros b' Hb'. apply Hmin. by rewrite Hperm.
  - specialize (Hcount ltac:(lia)). lia.
Qed.

(** ** Doubles

    What the binary64 operations do on integers below 2^53: conversion and
    product are exact, and the quotient by 100, rounded to nearest, lies on
    the same side of every half-integer as the exact quotient. *)

Section Doubles.

Lemma digits2_pos_size (m : positive) : digits2_pos m = Pos.size m.
Proof. induction m; simpl; congruence. Qed.

Lemma digits_bounds (m : positive) :
  2 ^ (Z.pos (digits2_pos m) - 1) ≤ Z.pos m < 2 ^ Z.pos (digits2_pos m).
Proof.
  rewrite digits2_pos_size.
  pose proof (Pos.size_gt m) as Hgt. pose proof (Pos.size_le m) as Hle.
  apply Pos2Z.pos_lt_pos in Hgt. apply Pos2Z.pos_le_pos in Hle.
  rewrite Pos2Z.inj_pow in Hgt, Hle.
  replace (Z.pos (Pos.size m)) with (Z.succ (Z.pos (Pos.size m) - 1)) in Hle at 1 by lia.
  rewrite Z.pow_succ_r in Hle by lia.
  change (Z.pos m~0) with (2 * Z.pos m) in Hle. lia.
Qed.

Lemma digits_unique (m : positive) (d : Z) :
  2 ^ (d - 1) ≤ Z.pos m < 2 ^ d → Z.pos (digits2_pos m) = d.
Proof.
  intros [Hlo Hhi]. pose proof (digits_bounds m) as [Hlo' Hhi'].
  destruct (Z.lt_trichotomy (Z.pos (digits2_pos m)) d) as [Hlt|[Heq|Hgt]]; [|done|].
  - assert (2 ^ Z.pos (digits2_pos m) ≤ 2 ^ (d - 1)) by (apply Z.pow_le_mono_r; lia).
    lia.
  - assert (0 ≤ d).
    { destruct (Z.le_gt_cases 0 d); [done|].
      rewrite (Z.pow_neg_r 2 d) in Hhi by lia. lia. }
    assert (2 ^ d ≤ 2 ^ (Z.pos (digits2_pos m) - 1)) by (apply Z.pow_le_mono_r; lia).
    lia.
Qed.

Lemma shr_1_double (c : Z) :
  0 ≤ c →
  shr_1 (Build_shr_record (c * 2) false false) = Build_shr_record c false false.
Proof. intros Hc. destruct c as [|c|c]; [done| |lia]. by rewrite Z.mul_comm. Qed.

Lemma iter_pos_xI {A} (f : A → A) n x :
  SpecFloat.iter_pos f (xI n) x = SpecFloat.iter_pos f n (SpecFloat.iter_pos f n (f x)).
Proof. reflexivity. Qed.

Lemma iter_pos_xO {A} (f : A → A) n x :
  SpecFloat.iter_pos f (xO n) x = SpecFloat.iter_pos f n (SpecFloat.iter_pos f n x).
Proof. reflexivity. Qed.

Lemma iter_shr_1_pow (p : positive) (c : Z) :
  0 ≤ c →
  SpecFloat.iter_pos shr_1 p (Build_shr_record (c * 2 ^ Z.pos p) false false)
  = Build_shr_record c false false.
Proof.
  revert c. induction p as [p IH|p IH|]; intros c Hc.
  - rewrite iter_pos_xI, (Pos2Z.inj_xI p).
    replace (2 * Z.pos p + 1) with (Z.pos p + Z.pos p + 1) by lia.
    rewrite !Z.pow_add_r by lia. change (2 ^ 1) with 2.
    assert (0 < 2 ^ Z.pos p) by (apply Z.pow_pos_nonneg; lia).
    rewrite !Z.mul_assoc, shr_1_double by nia.
    rewrite IH by nia. by rewrite IH.
  - rewrite iter_pos_xO, (Pos2Z.inj_xO p).
    replace (2 * Z.pos p) with (Z.pos p + Z.pos p) by lia.
    rewrite !Z.pow_add_r by lia.
    assert (0 < 2 ^ Z.pos p) by (apply Z.pow_pos_nonneg; lia).
    rewrite !Z.mul_assoc. rewrite IH by nia. by rewrite IH.
  - by apply shr_1_double.
Qed.

(** A shift that loses nothing. *)
Lemma shr_exact (c e n : Z) :
  0 ≤ c → 0 ≤ n →
  shr (Build_shr_record (c * 2 ^ n) false false) e n
  = (Build_shr_record c false false, e + n).
Proof.
  intros Hc Hn. destruct n as [|p|p]; [|  |lia].
  - simpl. by rewrite Z.mul_1_r, Z.add_0_r.
  - unfold shr. by rewrite iter_shr_1_pow.
Qed.


Lemma Zdigits2_unique (m d : Z) :
  0 < m → 2 ^ (d - 1) ≤ m < 2 ^ d → Zdigits2 m = d.
Proof.
  intros Hm Hd. destruct m as [|p|p]; [lia| |lia]. by apply digits_unique.
Qed.

Lemma fexp_normal (d : Z) : -1021 ≤ d → fexp IEEE.prec IEEE.emax d = d - 53.
Proof. unfold fexp, emin, IEEE.prec, IEEE.emax. lia. Qed.

Lemma pow2_pos (n : Z) : 0 ≤ n → 0 < 2 ^ n.
Proof. intros. apply Z.pow_pos_nonneg; lia. Qed.

Lemma shr_fexp_exact (c e n : Z) :
  2 ^ 52 ≤ c < 2 ^ 53 → 0 ≤ n → -1074 ≤ e + n →
  shr_fexp IEEE.prec IEEE.emax (c * 2 ^ n) e loc_Exact
  = (Build_shr_record c false false, e + n).
Proof.
  intros Hc Hn He. unfold shr_fexp.
  pose proof (pow2_pos n Hn).
  rewrite (Zdigits2_unique (c * 2 ^ n) (53 + n)).
  - rewrite fexp_normal by lia.
    replace (53 + n + e - 53 - e) with n by lia.
    apply shr_exact; lia.
  - nia.
  - replace (53 + n - 1) with (52 + n) by lia.
    rewrite !Z.pow_add_r by lia. nia.
Qed.

Lemma shr_fexp_53 (m e : Z) (l : location) :
  2 ^ 52 ≤ m < 2 ^ 53 → -1074 ≤ e →
  shr_fexp IEEE.prec IEEE.emax m e l = (shr_record_of_loc m l, e).
Proof.
  intros Hm He. unfold shr_fexp.
  rewrite (Zdigits2_unique m 53) by (change (2 ^ (53 - 1)) with (2 ^ 52); lia).
  rewrite fexp_normal by lia.
  replace (53 + e - 53 - e) with 0 by lia. done.
Qed.

Lemma shr_fexp_54 (m e : Z) (l : location) :
  2 ^ 53 ≤ m < 2 ^ 54 → -1075 ≤ e →
  shr_fexp IEEE.prec IEEE.emax m e l = (shr_1 (shr_record_of_loc m l), e + 1).
Proof.
  intros Hm He. unfold shr_fexp.
  rewrite (Zdigits2_unique m 54) by (change (2 ^ (54 - 1)) with (2 ^ 53); lia).
  rewrite fexp_normal by lia.
  replace (54 + e - 53 - e) with 1 by lia. done.
Qed.

(** [binary_round_aux] once the shift and the rounding are known. *)
Lemma binary_round_aux_eq (s : bool) (mx ex : Z) (lx : location)
    (mrs : shr_record) (e' M : Z) :
  shr_fexp IEEE.prec IEEE.emax mx ex lx = (mrs, e') →
  round_nearest_even (shr_m mrs) (loc_of_shr_record mrs) = M →
  2 ^ 52 ≤ M < 2 ^ 53 → -1074 ≤ e' ≤ 971 →
  binary_round_aux IEEE.prec IEEE.emax s mx ex lx = S754_finite s (Z.to_pos M) e'.
Proof.
  intros Hshr Hround HM He. unfold binary_round_aux.
  rewrite Hshr, Hround, shr_fexp_53 by lia. simpl shr_m.
  destruct M as [|p|p]; [lia| |lia].
  unfold IEEE.emax, IEEE.prec. simpl Z.to_pos.
  destruct (Z.leb_spec e' (1024 - 53)); [done|lia].
Qed.

Lemma binary_round_aux_exact (s : bool) (c e n : Z) :
  2 ^ 52 ≤ c < 2 ^ 53 → 0 ≤ n → -1074 ≤ e + n ≤ 971 →
  binary_round_aux IEEE.prec IEEE.emax s (c * 2 ^ n) e loc_Exact
  = S754_finite s (Z.to_pos c) (e + n).
Proof.
  intros Hc Hn He.
  eapply binary_round_aux_eq; [by apply shr_fexp_exact; lia|done|done|done].
Qed.

Lemma pos_iter_xO (m d : positive) :
  Z.pos (Pos.iter xO m d) = Z.pos m * 2 ^ Z.pos d.
Proof.
  induction d as [|d IH] using Pos.peano_ind.
  - simpl. lia.
  - rewrite Pos.iter_succ, Pos2Z.inj_xO, IH, Pos2Z.inj_succ, Z.pow_succ_r by lia. lia.
Qed.

Lemma shl_align_le (mx : positive) (ex ex' : Z) :
  ex' ≤ ex →
  ∃ mz, shl_align mx ex ex' = (mz, ex') ∧ Z.pos mz = Z.pos mx * 2 ^ (ex - ex').
Proof.
  intros Hle. unfold shl_align. destruct (ex' - ex) as [|d|d] eqn:Hd; [|lia|].
  - assert (ex' = ex) as -> by lia. exists mx. rewrite Z.sub_diag. split; [done|lia].
  - exists (Pos.iter xO mx d). split; [done|].
    rewrite pos_iter_xO. f_equal. f_equal. lia.
Qed.

(** Every positive integer below [2^53] has a normal mantissa. *)
Lemma exists_shift (x : Z) :
  0 < x < 2 ^ 53 → ∃ k, 0 ≤ k ≤ 52 ∧ 2 ^ 52 ≤ x * 2 ^ k < 2 ^ 53.
Proof.
  intros Hx. destruct x as [|p|p]; [lia| |lia].
  pose proof (digits_bounds p) as [Hlo Hhi].
  set (d := Z.pos (digits2_pos p)) in *.
  assert (1 ≤ d) by (unfold d; lia).
  assert (d ≤ 53).
  { destruct (Z.le_gt_cases d 53); [done|].
    assert (2 ^ 53 ≤ 2 ^ (d - 1)) by (apply Z.pow_le_mono_r; lia). lia. }
  exists (53 - d). split; [lia|].
  pose proof (pow2_pos (53 - d) ltac:(lia)).
  replace (2 ^ 52) with (2 ^ (d - 1) * 2 ^ (53 - d)).
  2:{ rewrite <- Z.pow_add_r by lia. f_equal. lia. }
  replace (2 ^ 53) with (2 ^ d * 2 ^ (53 - d)).
  2:{ rewrite <- Z.pow_add_r by lia. f_equal. lia. }
  nia.
Qed.

Lemma shift_unique (x k k' : Z) :
  0 ≤ k → 0 ≤ k' →
  2 ^ 52 ≤ x * 2 ^ k < 2 ^ 53 → 2 ^ 52 ≤ x * 2 ^ k' < 2 ^ 53 → k = k'.
Proof.
  intros Hk Hk' H1 H2.
  assert (∀ a b, 0 ≤ a → a < b → 2 ^ 52 ≤ x * 2 ^ a < 2 ^ 53 →
                 2 ^ 52 ≤ x * 2 ^ b < 2 ^ 53 → False) as Hlt.
  { intros a b Ha Hab Ha' Hb'.
    replace b with (a + (b - a)) in Hb' by lia.
    rewrite Z.pow_add_r in Hb' by lia.
    assert (2 ^ 1 ≤ 2 ^ (b - a)) by (apply Z.pow_le_mono_r; lia).
    change (2 ^ 1) with 2 in *. pose proof (pow2_pos a Ha). nia. }
  destruct (Z.lt_trichotomy k k') as [?|[?|?]]; [|done|]; exfalso; eauto.
Qed.

Lemma binary_round_normal (s : bool) (p : positive) :
  Z.pos p < 2 ^ 53 → normal s (Z.pos p) (binary_round IEEE.prec IEEE.emax s p 0).
Proof.
  intros Hp. destruct (exists_shift (Z.pos p) ltac:(lia)) as (k & Hk & Hkp).
  exists k. split_and!; [lia..|].
  unfold binary_round.
  pose proof (digits_bounds p) as Hd.
  set (d := Z.pos (digits2_pos p)) in *.
  assert (53 - d = k) as Hdk.
  { assert (d ≤ 53).
    { destruct (Z.le_gt_cases d 53); [done|].
      assert (2 ^ 53 ≤ 2 ^ (d - 1)) by (apply Z.pow_le_mono_r; lia). lia. }
    apply (shift_unique (Z.pos p)); [lia|lia| |done].
    pose proof (pow2_pos (53 - d) ltac:(lia)).
    replace (2 ^ 52) with (2 ^ (d - 1) * 2 ^ (53 - d)).
    2:{ rewrite <- Z.pow_add_r by lia. f_equal. lia. }
    replace (2 ^ 53) with (2 ^ d * 2 ^ (53 - d)).
    2:{ rewrite <- Z.pow_add_r by lia. f_equal. lia. }
    nia. }
  rewrite fexp_normal by lia.
  destruct (shl_align_le p 0 (d + 0 - 53) ltac:(lia)) as (mz & -> & Hmz).
  replace (0 - (d + 0 - 53)) with k in Hmz by lia.
  pose proof (binary_round_aux_exact s (Z.pos mz) (d + 0 - 53) 0) as Hexact.
  rewrite Z.mul_1_r in Hexact. rewrite Hexact by lia.
  f_equal; [by rewrite Hmz|lia].
Qed.

Lemma ofZ_pos (x : Z) : 0 < x < 2 ^ 53 → normal false x (IEEE.ofZ x).
Proof.
  intros Hx. destruct x as [|p|p]; [lia| |lia]; apply binary_round_normal; lia.
Qed.

Lemma ofZ_neg (x : Z) : 0 < x < 2 ^ 53 → normal true x (IEEE.ofZ (- x)).
Proof.
  intros Hx. destruct x as [|p|p]; [lia| |lia]; apply binary_round_normal; lia.
Qed.


(** The product of two integers is exact when it is below [2^53]. *)
Lemma mul_normal (s1 s2 : bool) (x1 x2 : Z) (f1 f2 : spec_float) :
  normal s1 x1 f1 → normal s2 x2 f2 → x1 * x2 < 2 ^ 53 →
  normal (xorb s1 s2) (x1 * x2) (IEEE.mul f1 f2).
Proof.
  intros (k1 & Hk1 & Hx1 & ->) (k2 & Hk2 & Hx2 & ->) Hprod.
  pose proof (pow2_pos k1 ltac:(lia)). pose proof (pow2_pos k2 ltac:(lia)).
  assert (0 < x1) by nia. assert (0 < x2) by nia.
  destruct (exists_shift (x1 * x2) ltac:(nia)) as (k & Hk & Hx).
  exists k. split_and!; [lia..|].
  unfold IEEE.mul, SFmul.
  rewrite Pos2Z.inj_mul, !Z2Pos.id by nia.
  pose proof (pow2_pos k ltac:(lia)).
  assert (k ≤ k1 + k2) as Hn.
  { destruct (Z.le_gt_cases k (k1 + k2)); [done|]. exfalso.
    assert (2 ^ (k1 + k2 + 1) ≤ 2 ^ k) as Hpow by (apply Z.pow_le_mono_r; lia).
    rewrite !Z.pow_add_r in Hpow by lia. change (2 ^ 1) with 2 in Hpow.
    assert (2 ^ 52 * 2 ^ 52 ≤ x1 * 2 ^ k1 * (x2 * 2 ^ k2)) by nia.
    assert (x1 * 2 ^ k1 * (x2 * 2 ^ k2) * 2 ≤ x1 * x2 * 2 ^ k) by nia.
    change (2 ^ 52) with 4503599627370496 in *.
    change (2 ^ 53) with 9007199254740992 in *. lia. }
  replace (x1 * 2 ^ k1 * (x2 * 2 ^ k2)) with (x1 * x2 * 2 ^ k * 2 ^ (k1 + k2 - k)).
  2:{ assert (2 ^ k * 2 ^ (k1 + k2 - k) = 2 ^ k1 * 2 ^ k2) as Hpow.
      { rewrite <- !Z.pow_add_r by lia. f_equal. lia. }
      nia. }
  rewrite binary_round_aux_exact by lia.
  f_equal. lia.
Qed.


Lemma integerValue_normal (s : bool) (x : Z) (f : spec_float) :
  normal s x f → IEEE.integerValue f = Some (cond_Zopp s x).
Proof.
  intros (k & Hk & Hx & ->). pose proof (pow2_pos k ltac:(lia)).
  unfold IEEE.integerValue. rewrite Z2Pos.id by lia.
  destruct (Z.leb_spec 0 (- k)).
  - assert (k = 0) as -> by lia. simpl. by rewrite !Z.mul_1_r.
  - rewrite Z.opp_involutive, Z.mod_mul, Z.div_mul by lia. done.
Qed.

Lemma integerValue_ofZ (n : Z) : Z.abs n < 2 ^ 53 → IEEE.integerValue (IEEE.ofZ n) = Some n.
Proof.
  intros Hn. destruct (Z.lt_trichotomy n 0) as [Hneg|[->|Hpos]]; [| done |].
  - replace n with (- - n) at 1 by lia.
    rewrite (integerValue_normal true (- n)) by (apply ofZ_neg; lia).
    simpl. f_equal. lia.
  - rewrite (integerValue_normal false n) by (apply ofZ_pos; lia). done.
Qed.

Lemma ofZ_100 : IEEE.ofZ 100 = S754_finite false 7036874417766400 (-46).
Proof. reflexivity. Qed.

Lemma div_eucl_eq (a b : Z) : Z.div_eucl a b = (a / b, a mod b).
Proof. unfold Z.div, Z.modulo. by destruct (Z.div_eucl a b). Qed.

(** The quotient by 100 before it is rounded: the integer part, its
    exponent, and where the rest falls. *)
Lemma SFdiv_core_binary_100 (c k : Z) :
  2 ^ 52 ≤ c < 2 ^ 53 → 0 ≤ k ≤ 52 →
  SFdiv_core_binary IEEE.prec IEEE.emax c (- k) 7036874417766400 (-46)
  = (c * 128 / 100, - k - 7,
     if (c * 128) mod 100 =? 0 then loc_Exact
     else loc_Inexact ((c * 128) mod 100 ?= 50)).
Proof.
  intros Hc Hk. unfold SFdiv_core_binary.
  rewrite (Zdigits2_unique c 53) by (change (2 ^ (53 - 1)) with (2 ^ 52); lia).
  change (Zdigits2 7036874417766400) with 53.
  rewrite fexp_normal by lia.
  replace (Z.min (53 + - k - (53 + -46) - 53) (- k - -46)) with (- k - 7) by lia.
  replace (- k - -46 - (- k - 7)) with 53 by lia.
  rewrite Z.shiftl_mul_pow2, div_eucl_eq by lia.
  change 7036874417766400 with (100 * 2 ^ 46).
  replace (c * 2 ^ 53) with (c * 128 * 2 ^ 46) by (change (2 ^ 53) with (128 * 2 ^ 46); ring).
  rewrite Z.div_mul_cancel_r, Z.mul_mod_distr_r by done.
  f_equal. unfold new_location. change (Z.even (100 * 2 ^ 46)) with true.
  unfold new_location_even.
  pose proof (Z.mod_pos_bound (c * 128) 100 ltac:(lia)) as Hrho.
  set (rho := (c * 128) mod 100) in *.
  destruct (Z.eqb_spec rho 0) as [->|Hne]; [done|].
  destruct (Z.eqb_spec (rho * 2 ^ 46) 0) as [Hz|_]; [exfalso; change (2 ^ 46) with 70368744177664 in Hz; lia|].
  f_equal. change (2 ^ 46) with 70368744177664.
  destruct (Z.compare_spec (2 * (rho * 70368744177664)) (100 * 70368744177664)),
    (Z.compare_spec rho 50); try done; exfalso; lia.
Qed.

Lemma shr_record_of_loc_m (m : Z) (l : location) : shr_m (shr_record_of_loc m l) = m.
Proof. by destruct l as [|[]]. Qed.

Lemma loc_of_shr_record_of_loc (m : Z) (l : location) :
  loc_of_shr_record (shr_record_of_loc m l) = l.
Proof. by destruct l as [|[]]. Qed.

Lemma shr_1_spec (m : Z) (r s : bool) :
  0 ≤ m → shr_1 (Build_shr_record m r s) = Build_shr_record (m / 2) (Z.odd m) (r || s).
Proof.
  intros Hm. destruct m as [|[p|p|]|p]; try done; simpl; f_equal.
  - rewrite Pos2Z.inj_xI. apply (Z.div_unique _ _ _ 1); lia.
  - rewrite Pos2Z.inj_xO. apply (Z.div_unique _ _ _ 0); lia.
Qed.

Lemma div_floor (a b t : Z) : 0 < b → b * t ≤ a < b * (t + 1) → a / b = t.
Proof. intros Hb Ht. symmetry. apply (Z.div_unique a b t (a - b * t)); lia. Qed.

(** [Math.round] of a double below [2^52] in absolute value. *)
Lemma Math_round_small (s : bool) (M E n : Z) :
  0 < M → E < 0 → Z.abs n < 2 ^ 53 →
  2 ^ (1 - E) * n ≤ 2 * cond_Zopp s M + 2 ^ (- E) < 2 ^ (1 - E) * (n + 1) →
  IEEE.integerValue (IEEE.Math_round (S754_finite s (Z.to_pos M) E)) = Some n.
Proof.
  intros HM HE Hn Hfloor. unfold IEEE.Math_round.
  destruct (Z.leb_spec 0 E); [lia|].
  rewrite Z2Pos.id by done.
  rewrite (div_floor _ _ n); [|apply pow2_pos; lia|done].
  destruct (Z.eqb_spec n 0) as [->|_]; [done|]. by apply integerValue_ofZ.
Qed.

(** The division by 100 of the double of an integer, then [Math.round]:
    the integer nearest to the hundredth, a tie going up. *)
Lemma Math_round_div_100 (s : bool) (x : Z) (f : spec_float) :
  normal s x f →
  IEEE.integerValue (IEEE.Math_round (IEEE.div f (IEEE.ofZ 100)))
  = Some ((2 * cond_Zopp s x + 100) / 200).
Proof.
  intros (k & Hk & Hx & ->). pose proof (pow2_pos k ltac:(lia)) as Hw.
  set (c := x * 2 ^ k) in *.
  unfold IEEE.div, SFdiv. rewrite ofZ_100, Z2Pos.id, SFdiv_core_binary_100, xorb_false_r by lia.
  pose proof (Z.div_mod (c * 128) 100 ltac:(lia)) as HN.
  pose proof (Z.mod_pos_bound (c * 128) 100 ltac:(lia)) as Hrho.
  set (q := c * 128 / 100) in *. set (rho := (c * 128) mod 100) in *.
  set (l := if rho =? 0 then loc_Exact else loc_Inexact (rho ?= 50)).
  set (t := (2 * cond_Zopp s x + 100) / 200).
  assert (0 < x) as Hxpos by (unfold c in Hx; nia).
  assert (200 * t ≤ 2 * cond_Zopp s x + 100 < 200 * t + 200) as Ht.
  { pose proof (Z.div_mod (2 * cond_Zopp s x + 100) 200 ltac:(lia)).
    pose proof (Z.mod_pos_bound (2 * cond_Zopp s x + 100) 200 ltac:(lia)).
    unfold t. lia. }
  change (2 ^ 52) with 4503599627370496 in *.
  change (2 ^ 53) with 9007199254740992 in *.
  assert (x ≤ c) as Hxc by (unfold c; nia).
  assert (Z.abs t < 9007199254740992) as Htabs by (destruct s; simpl in Ht; lia).
  (* the bounds on [t], scaled by [2 ^ k] *)
  set (w := 2 ^ k) in *. set (B := t * w).
  assert (200 * B ≤ 2 * cond_Zopp s c + 100 * w
          ∧ 2 * cond_Zopp s c + 100 * w + 2 * w ≤ 200 * B + 200 * w) as HB.
  { unfold B, c. destruct s; simpl in *; nia. }
  destruct (Z.lt_ge_cases q 9007199254740992) as [Hq|Hq].
  - (* the quotient has 53 digits: no shift *)
    set (M := round_nearest_even q l).
    assert ((M = q ∧ rho ≤ 50) ∨ (M = q + 1 ∧ 50 ≤ rho)) as HM.
    { unfold M, l. destruct (Z.eqb_spec rho 0); [simpl; lia|].
      destruct (Z.compare_spec rho 50); simpl; [destruct (Z.even q)|..]; lia. }
    rewrite (binary_round_aux_eq s q (- k - 7) l (shr_record_of_loc q l) (- k - 7) M).
    + apply Math_round_small; [lia|lia|done|].
      replace (1 - (- k - 7)) with (k + 8) by lia.
      replace (- (- k - 7)) with (k + 7) by lia.
      rewrite !Z.pow_add_r by lia. fold w.
      change (2 ^ 8) with 256. change (2 ^ 7) with 128.
      replace (w * 256 * t) with (256 * B) by (unfold B; ring).
      replace (w * 256 * (t + 1)) with (256 * B + 256 * w) by (unfold B; ring).
      clearbody B w c q rho t M. clear l. destruct s; simpl in *; lia.
    + apply shr_fexp_53; change (2 ^ 52) with 4503599627370496;
        change (2 ^ 53) with 9007199254740992; lia.
    + by rewrite shr_record_of_loc_m, loc_of_shr_record_of_loc.
    + change (2 ^ 52) with 4503599627370496.
      change (2 ^ 53) with 9007199254740992. lia.
    + lia.
  - (* the quotient has 54 digits: one shift *)
    set (mrs := shr_1 (shr_record_of_loc q l)).
    set (M := round_nearest_even (shr_m mrs) (loc_of_shr_record mrs)).
    assert (q / 2 ≤ M ≤ q / 2 + 1
            ∧ (Z.odd q = false → M = q / 2)
            ∧ (Z.odd q = true → rho ≠ 0 → M = q / 2 + 1)) as HM.
    { unfold M, mrs, l. destruct (Z.eqb_spec rho 0) as [?|?].
      - simpl shr_record_of_loc. rewrite shr_1_spec by lia.
        destruct (Z.odd q); simpl; [destruct (Z.even (q / 2))|]; lia.
      - destruct (rho ?= 50); simpl shr_record_of_loc; rewrite shr_1_spec by lia;
          destruct (Z.odd q); simpl; lia. }
    pose proof (Z.div_mod q 2 ltac:(lia)) as Hq2.
    pose proof (Z.mod_pos_bound q 2 ltac:(lia)) as Hq2b.
    pose proof (Zmod_odd q) as Hodd.
    set (h := q / 2) in *. set (b := q mod 2) in *.
    rewrite (binary_round_aux_eq s q (- k - 7) l mrs (- k - 7 + 1) M).
    + apply Math_round_small; [lia|lia|done|].
      replace (1 - (- k - 7 + 1)) with (k + 7) by lia.
      replace (- (- k - 7 + 1)) with (k + 6) by lia.
      rewrite !Z.pow_add_r by lia. fold w.
      change (2 ^ 7) with 128. change (2 ^ 6) with 64.
      replace (w * 128 * t) with (128 * B) by (unfold B; ring).
      replace (w * 128 * (t + 1)) with (128 * B + 128 * w) by (unfold B; ring).
      clearbody B w c q rho t M h b. clear l mrs.
      destruct (Z.odd q); destruct s; simpl in *; lia.
    + apply shr_fexp_54; change (2 ^ 54) with 18014398509481984;
        change (2 ^ 53) with 9007199254740992; lia.
    + done.
    + change (2 ^ 52) with 4503599627370496.
      change (2 ^ 53) with 9007199254740992. lia.
    + lia.
Qed.

End Doubles.

Lemma ofZ_normal (n : Z) :
  n ≠ 0 → Z.abs n < 2 ^ 53 → normal (n <? 0) (Z.abs n) (IEEE.ofZ n).
Proof.
  intros Hn Habs. destruct (Z.ltb_spec n 0).
  - replace n with (- Z.abs n) at 2 by lia. apply ofZ_neg. lia.
  - replace n with (Z.abs n) at 2 by lia. apply ofZ_pos. lia.
Qed.

Lemma or0_normal (s : bool) (x : Z) (f : spec_float) :
  normal s x f → IEEE.or0 (Some f) = f.
Proof. by intros (k & _ & _ & ->). Qed.

(** A weight that is missing or falsy gives the target 0 at every finite
    base. *)
Lemma targetCount_falsy (base : spec_float) (w : option spec_float) :
  IEEE.isFinite base = true → IEEE.or0 w = S754_zero false →
  IEEE.integerValue (IEEE.targetCount base w) = Some 0.
Proof.
  intros Hfin Hw. unfold IEEE.targetCount. rewrite Hw.
  by destruct base as [s| | |s m e].
Qed.

(** The target in double precision is the target on integers, as long as
    the product of base and weight is below 2^53 in absolute value. *)
Lemma targetCount_exact (base p : Z) :
  Z.abs base < 2 ^ 53 → Z.abs p < 2 ^ 53 → Z.abs (base * p) < 2 ^ 53 →
  IEEE.integerValue (IEEE.targetCount (IEEE.ofZ base) (Some (IEEE.ofZ p)))
  = Some (Math_round_div (base * p) 100).
Proof.
  intros Hb Hp Hbp. unfold Math_round_div. change (2 * 100) with 200.
  destruct (Z.eq_dec p 0) as [->|Hp0].
  { rewrite Z.mul_0_r. apply targetCount_falsy; [|done].
    destruct (Z.eq_dec base 0) as [->|Hb0]; [done|].
    by destruct (ofZ_normal base Hb0 Hb) as (k & _ & _ & ->). }
  pose proof (ofZ_normal p Hp0 Hp) as Hnp.
  unfold IEEE.targetCount. rewrite (or0_normal _ _ _ Hnp).
  destruct (Z.eq_dec base 0) as [->|Hb0].
  { destruct Hnp as (k & _ & _ & ->). done. }
  pose proof (ofZ_normal base Hb0 Hb) as Hnb.
  pose proof (mul_normal _ _ _ _ _ _ Hnb Hnp ltac:(lia)) as Hprod.
  rewrite (Math_round_div_100 _ _ _ Hprod). do 3 f_equal.
  destruct (Z.ltb_spec base 0), (Z.ltb_spec p 0); simpl; lia.
Qed.

(** C5 (rounding of the per-exam target), as the code has it.  The target
    is computed in double precision.  For an integer base and an integer
    weight whose product is below 2^53 in absolute value it is
    [base * weight / 100] rounded to the nearest integer, a tie going up:
    the one integer [t] with [t - 1/2 <= base * weight / 100 < t + 1/2],
    which is also the target of the handler on integers.  A weight that is
    missing, 0 or [NaN] gives 0 at every finite base (and [NaN] at an
    infinite one); base 25 gives 10 for weight 40 and 8 for weight 33. *)
Theorem targetCount_rounding :
  (∀ base p : Z,
      Z.abs base < 2 ^ 53 → Z.abs p < 2 ^ 53 → Z.abs (base * p) < 2 ^ 53 →
      ∃ t : Z,
        IEEE.integerValue (IEEE.targetCount (IEEE.ofZ base) (Some (IEEE.ofZ p)))
        = Some t
        ∧ 100 * t - 50 ≤ base * p < 100 * t + 50
        ∧ (∀ t' : Z, 100 * t' - 50 ≤ base * p < 100 * t' + 50 → t' = t)
        ∧ ∀ i qs, targetCount base (mkExam i (Some p) qs) = t)
  ∧ (∀ base : spec_float,
       IEEE.isFinite base = true →
       IEEE.integerValue (IEEE.targetCount base None) = Some 0
       ∧ IEEE.integerValue (IEEE.targetCount base (Some S754_nan)) = Some 0
       ∧ ∀ s, IEEE.integerValue (IEEE.targetCount base (Some (S754_zero s))) = Some 0)
  ∧ IEEE.targetCount (S754_infinity false) None = S754_nan
  ∧ (∀ s, IEEE.targetCount (S754_infinity false) (Some (S754_zero s)) = S754_nan)
  ∧ IEEE.integerValue (IEEE.targetCount (IEEE.ofZ 25) (Some (IEEE.ofZ 40))) = Some 10
  ∧ IEEE.integerValue (IEEE.targetCount (IEEE.ofZ 25) (Some (IEEE.ofZ 33))) = Some 8.
Proof.
  split_and!.
  - intros base p Hb Hp Hbp. exists (Math_round_div (base * p) 100).
    assert (100 * Math_round_div (base * p) 100 - 50 ≤ base * p
            < 100 * Math_round_div (base * p) 100 + 50) as Hnear.
    { unfold Math_round_div. change (2 * 100) with 200.
      pose proof (Z.div_mod (2 * (base * p) + 100) 200 ltac:(lia)) as Hdiv.
      pose proof (Z.mod_pos_bound (2 * (base * p) + 100) 200 ltac:(lia)) as Hmod.
      lia. }
    split_and!.
    + by apply targetCount_exact.
    + lia.
    + lia.
    + lia.
    + done.
  - intros base Hfin. split_and!; [| |intros s]; by apply targetCount_falsy.
  - reflexivity.
  - by intros [].
  - by vm_compute.
  - by vm_compute.
Qed.

(** C6 (block building).  The blocks of an exam are the blocks of its set
    ids, one for each id in order of first appearance, followed by one
    block for every question without a set id.  The block of a set id holds
    exactly the questions that carry that id (a string that is not empty),
    in ascending [setOrder], an order that is missing or not finite
    counting as 0, and questions of equal order stay in the order of the
    collection.  Together the blocks hold each question of the exam exactly
    once. *)
Theorem buildBlocksForExam_correct (e : exam) :
  let qs := questions e in
  let order := λ q : question, match setOrder q with Some z => z | None => 0 end in
  ∃ sets : list block,
    buildBlocksForExam e = sets ++ ((λ q, [q]) <$> List.filter ungrouped qs)
    ∧ Forall2 (λ (k : string) (b : block),
                 b ≡ₚ bucket k qs
                 ∧ StronglySorted (λ q1 q2, order q1 ≤ order q2) b
                 ∧ ∀ z, List.filter (λ q, order q =? z) b
                        = List.filter (λ q, order q =? z) (bucket k qs))
        (group_ids qs) sets
    ∧ NoDup (group_ids qs)
    ∧ (∀ k, k ∈ group_ids qs ↔ k ≠ "" ∧ ∃ q, q ∈ qs ∧ setId q = Some k)
    ∧ (∀ k q, k ≠ "" → (q ∈ bucket k qs ↔ q ∈ qs ∧ setId q = Some k))
    ∧ (∀ q, q ∈ List.filter ungrouped qs
            ↔ q ∈ qs ∧ (setId q = None ∨ setId q = Some ""))
    ∧ mjoin (buildBlocksForExam e) ≡ₚ qs.
Proof.
  simpl.
  assert (∀ q k, truthy_setId q = Some k ↔ k ≠ "" ∧ setId q = Some k) as Htruthy.
  { intros q k. unfold truthy_setId. destruct (setId q) as [s|]; [|naive_solver].
    destruct (String.eqb_spec s ""); naive_solver. }
  assert (∀ q, truthy_setId q = None ↔ setId q = None ∨ setId q = Some "") as Hfalsy.
  { intros q. unfold truthy_setId. destruct (setId q) as [s|]; [|naive_solver].
    destruct (String.eqb_spec s ""); naive_solver. }
  exists ((λ k, sort_by orderKey (bucket k (questions e))) <$> group_ids (questions e)).
  split_and!.
  - apply buildBlocksForExam_eq.
  - apply Forall2_fmap_r, Forall_Forall2_diag, Forall_forall. intros k _.
    split_and!.
    + apply sort_by_Permutation.
    + exact (sort_by_sorted orderKey (bucket k (questions e))).
    + intros z. exact (sort_by_stable orderKey z (bucket k (questions e))).
  - apply group_ids_NoDup.
  - intros k. rewrite (elem_of_group_ids k (questions e)).
    setoid_rewrite Htruthy. naive_solver.
  - intros k q Hk. unfold bucket. rewrite !list_elem_of_In, filter_In.
    unfold in_group. destruct (truthy_setId q) as [k'|] eqn:Hq.
    + apply Htruthy in Hq as [Hk' Hq]. rewrite String.eqb_eq. naive_solver.
    + apply Hfalsy in Hq. naive_solver.
  - intros q. rewrite !list_elem_of_In, filter_In, <- Hfalsy.
    unfold ungrouped. destruct (truthy_setId q); naive_solver.
  - apply buildBlocksForExam_Permutation.
Qed.

(** ** Degenerate inputs *)

Lemma collectBlocks_nothing (base : Z) (exams : list exam)
    (allBlocks : list block) (r : Rand) :
  Forall (λ e, buildBlocksForExam e = [] ∨ targetCount base e ≤ 0) exams →
  collectBlocks base exams allBlocks r = (allBlocks, r).
Proof.
  intros Hall. revert allBlocks r.
  induction Hall as [|e exams He Hall IH]; intros allBlocks r; [done|].
  simpl. unfold bind.
  assert (pickBlocks (buildBlocksForExam e) (targetCount base e) r = ([], r)) as ->.
  { destruct (Z.le_gt_cases (targetCount base e) 0) as [Hle|Hpos].
    { by apply pickBlocks_nonpositive. }
    destruct He as [He|?]; [|lia].
    rewrite pickBlocks_positive by lia. by rewrite He. }
  by rewrite app_nil_r, IH.
Qed.

Lemma buildBlocksForExam_nil (e : exam) :
  questions e = [] → buildBlocksForExam e = [].
Proof. unfold buildBlocksForExam. by intros ->. Qed.

Lemma targetCount_zero (base : Z) (e : exam) :
  percentage_or_0 e = 0 → targetCount base e = 0.
Proof. unfold targetCount. intros ->. by rewrite Z.mul_0_r. Qed.

(** ** How much of the random source a request reads *)

Section Reads.
Context {A B : Type}.






Lemma shuffle_with_agree (arr : list A) (r1 r2 : Rand) :
  agree (length arr) r1 r2 → shuffle_with r1 arr = shuffle_with r2 arr.
Proof.
  unfold agree. revert r1 r2.
  induction arr as [|x arr IH]; intros r1 r2 Hr; [done|]. simpl.
  destruct r1 as [|d1 r1], r2 as [|d2 r2]; simpl in *; try done.
  injection Hr as -> Hr. by rewrite (IH r1 r2).
Qed.


End Reads.

(** Whatever came before, a shuffle can produce any rearrangement of its
    argument and leave the random source in any state. *)
Lemma shuffle_any {A} (arr l : list A) (r' : Rand) :
  arr ≡ₚ l → ∃ r, shuffle arr r = (l, r').
Proof.
  intros (draws & Hlen & <-)%shuffle_with_any.
  exists (draws ++ r'). unfold shuffle. f_equal.
  - apply shuffle_with_agree. unfold agree.
    by rewrite <- Hlen, take_app_length, firstn_all.
  - rewrite <- Hlen. apply drop_app_length.
Qed.





(** ** The request, the response and the random source *)

Section RequestProperties.
Variable toAbsoluteImageUrl : option string → option string.
Implicit Types (req : request) (exams : list exam) (r : Rand).

Local Abbreviation normalize := (normalize toAbsoluteImageUrl).
Local Abbreviation assemble := (assemble toAbsoluteImageUrl).
Local Abbreviation assembled := (assembled toAbsoluteImageUrl).

(** C7 (input defaulting).  Whatever [base] and [max] the request carries,
    the handler answers 200 once the exams are fetched.  A [base] that is
    missing, not a number, or not positive is replaced by 25, a [max] by
    100; a positive value is kept.  The response returns the values so
    obtained, and they are the ones applied: the targets of the exams are
    computed from the returned [base] and the walk is capped by the returned
    [max]. *)
Theorem input_defaulting req exams r :
  let body := (assemble req exams r).1 in
  (assembled req (Some exams) r).1 = Http200 body
  ∧ (query_base req = NaN → r_base body = 25)
  ∧ (∀ z, query_base req = Num z → z ≤ 0 → r_base body = 25)
  ∧ (∀ z, query_base req = Num z → 0 < z → r_base body = z)
  ∧ (query_max req = NaN → r_max body = 100)
  ∧ (∀ z, query_max req = Num z → z ≤ 0 → r_max body = 100)
  ∧ (∀ z, query_max req = Num z → 0 < z → r_max body = z)
  ∧ r_questions body
    = normalize (query_absoluteImages req)
        <$> trimLoop (r_max body) (shuffledPool (r_base body) exams r).1 [] 0.
Proof.
  simpl. split_and!.
  - apply assembled_fetched.
  - rewrite assemble_eq. simpl. unfold effective_base. by intros ->.
  - rewrite assemble_eq. simpl. unfold effective_base. intros z -> Hz. simpl.
    by destruct (Z.ltb_spec 0 z); [lia|].
  - rewrite assemble_eq. simpl. unfold effective_base. intros z -> Hz. simpl.
    by destruct (Z.ltb_spec 0 z); [|lia].
  - rewrite assemble_eq. simpl. unfold effective_max. by intros ->.
  - rewrite assemble_eq. simpl. unfold effective_max. intros z -> Hz. simpl.
    by destruct (Z.ltb_spec 0 z); [lia|].
  - rewrite assemble_eq. simpl. unfold effective_max. intros z -> Hz. simpl.
    by destruct (Z.ltb_spec 0 z); [|lia].
  - by rewrite assemble_eq.
Qed.

(** C8 (output shape and degenerate inputs).  The body of the response is
    [{base, max, count, questions}] with [count] the length of [questions].
    With no exam at all, with exams that have no question, or with exams
    whose weights are all 0 or missing, the response is the 200 response
    [{base, max, count: 0, questions: []}]. *)
Theorem degenerate_inputs req exams r :
  let body := (assemble req exams r).1 in
  let nothing := {| r_base := effective_base req; r_max := effective_max req;
                    r_count := 0; r_questions := [] |} in
  (assembled req (Some exams) r).1 = Http200 body
  ∧ r_base body = effective_base req
  ∧ r_max body = effective_max req
  ∧ r_count body = Z.of_nat (length (r_questions body))
  ∧ (exams = [] → body = nothing)
  ∧ (Forall (λ e, questions e = []) exams → body = nothing)
  ∧ (Forall (λ e, percentage_or_0 e = 0) exams → body = nothing).
Proof.
  simpl.
  assert (Forall (λ e, buildBlocksForExam e = [] ∨ targetCount (effective_base req) e ≤ 0) exams
          → (assemble req exams r).1
            = {| r_base := effective_base req; r_max := effective_max req;
                 r_count := 0; r_questions := [] |}) as Hnothing.
  { intros Hall. rewrite assemble_eq. unfold shuffledPool, bind.
    by rewrite collectBlocks_nothing. }
  split_and!.
  - apply assembled_fetched.
  - by rewrite assemble_eq.
  - by rewrite assemble_eq.
  - by rewrite assemble_eq.
  - intros ->. by apply Hnothing.
  - intros Hall. apply Hnothing. eapply Forall_impl; [exact Hall|].
    intros e He. left. by apply buildBlocksForExam_nil.
  - intros Hall. apply Hnothing. eapply Forall_impl; [exact Hall|].
    intros e He. right. by rewrite targetCount_zero.
Qed.


End RequestProperties.

Import Sample.

Example buildBlocksForExam_reading :
  buildBlocksForExam reading = [[part1; part2]; [alone]].
Proof. reflexivity. Qed.

(** One exam of weight 10 that holds one block of five questions: the
    target is 3, the fallback fires and the five questions are selected. *)
Example pickBlocks_single_block_exceeds_target :
  let q n := {| qid := n; text := ""; image := None;
                setId := Some "set"; setOrder := None |} in
  let e := {| eid := "e"; questionPercentage := Some 10;
              questions := [q "1"; q "2"; q "3"; q "4"; q "5"] |} in
  targetCount 25 e = 3
  ∧ (pickBlocks (buildBlocksForExam e) (targetCount 25 e) []).1
    = [[q "1"; q "2"; q "3"; q "4"; q "5"]].
Proof. split; reflexivity. Qed.

(** C3, the claim as stated fails.  The request caps the list at one
    question; the shuffled pool holds the two-part passage, then the
    stand-alone question.  Walking the whole pool first would skip the
    passage and accept the stand-alone question, leaving a list that is not
    empty, so no fallback.  The handler accepts the passage as soon as it
    meets it, and stops. *)
Lemma global_walk_counterexample :
  let pool := (shuffledPool (effective_base tight) [reading] []).1 in
  pool = [[part1; part2]; [alone]]
  ∧ fitWalk (effective_max tight) pool 0 = [[alone]]
  ∧ specTrim (effective_max tight) pool = [alone]
  ∧ r_questions (assemble absolute tight [reading] []).1 = [part1; part2].
Proof. repeat split; reflexivity. Qed.


(** ** The theorems at work on the bank *)

(** The rounding of C5 does not hold for every base.  With [?base=260425410376950] and a
    weight of 99 the product, 25782115627318050, lies between 2^54 and 2^55,
    where doubles are 4 apart, and is rounded to 25782115627318048 before
    the division; the hundredth of that is below ...180.5, so the target is
    ...180, while the exact quotient is ...180.5 and the nearest integer, a
    tie going up, is ...181. *)
Lemma targetCount_product_rounded :
  IEEE.integerValue (IEEE.ofZ 260425410376950) = Some 260425410376950
  ∧ IEEE.integerValue (IEEE.mul (IEEE.ofZ 260425410376950) (IEEE.ofZ 99))
    = Some 25782115627318048
  ∧ IEEE.integerValue
      (IEEE.targetCount (IEEE.ofZ 260425410376950) (Some (IEEE.ofZ 99)))
    = Some 257821156273180
  ∧ 260425410376950 * 99 = 25782115627318050
  ∧ 100 * 257821156273181 - 50 ≤ 260425410376950 * 99 < 100 * 257821156273181 + 50
  ∧ targetCount 260425410376950 (mkExam "e" (Some 99) []) = 257821156273181.
Proof. split_and!; by vm_compute. Qed.

(** C1 on the reading exam under the tight request: the passage is returned
    whole. *)
Lemma no_split_witness :
  NoDup (ids (all_questions [reading]))
  ∧ ((∀ q, q ∈ [part1; part2] →
           qid q ∈ ids (r_questions (assemble absolute tight [reading] []).1))
     ∨ (∀ q, q ∈ [part1; part2] →
             qid q ∉ ids (r_questions (assemble absolute tight [reading] []).1))).
Proof.
  assert (NoDup (ids (all_questions [reading]))) as Hnd.
  { apply (bool_decide_unpack _). vm_compute. exact I. }
  split; [exact Hnd|].
  apply (proj2 (no_split absolute tight [reading] []) Hnd reading [part1; part2]).
  - left.
  - change (buildBlocksForExam reading) with [[part1; part2]; [alone]]. left.
Defined.

(** C10 on the quiz, the first shuffle swapping its two questions: the
    returned identifiers are pairwise distinct. *)
Lemma no_duplication_witness :
  NoDup (ids (all_questions [quiz]))
  ∧ NoDup (ids (r_questions (assemble absolute plain [quiz] [1%nat]).1)).
Proof.
  assert (NoDup (ids (all_questions [quiz]))) as Hnd.
  { apply (bool_decide_unpack _). vm_compute. exact I. }
  split; [exact Hnd|].
  exact (proj2 (no_duplication absolute plain [quiz] [1%nat]) Hnd).
Defined.

(** C5 at base 25 and weight 6: 1.5 rounds to 2. *)
Lemma targetCount_rounding_witness :
  Z.abs 25 < 2 ^ 53 ∧ Z.abs 6 < 2 ^ 53 ∧ Z.abs (25 * 6) < 2 ^ 53
  ∧ ∃ t : Z,
      IEEE.integerValue (IEEE.targetCount (IEEE.ofZ 25) (Some (IEEE.ofZ 6))) = Some t
      ∧ 100 * t - 50 ≤ 25 * 6 < 100 * t + 50
      ∧ (∀ t' : Z, 100 * t' - 50 ≤ 25 * 6 < 100 * t' + 50 → t' = t)
      ∧ ∀ i qs, targetCount 25 (mkExam i (Some 6) qs) = t.
Proof.
  assert (Z.abs 25 < 2 ^ 53) as Hbase by done.
  assert (Z.abs 6 < 2 ^ 53) as Hweight by done.
  assert (Z.abs (25 * 6) < 2 ^ 53) as Hprod by done.
  split_and!; [exact Hbase|exact Hweight|exact Hprod|].
  exact (proj1 targetCount_rounding 25 6 Hbase Hweight Hprod).
Defined.

(** C7 on [?base=-3&max=7]: the base becomes 25, the max stays 7. *)
Lemma input_defaulting_witness :
  r_base (assemble absolute negative_base [reading] []).1 = 25
  ∧ r_max (assemble absolute negative_base [reading] []).1 = 7.
Proof.
  destruct (input_defaulting absolute negative_base [reading] [])
    as (_ & _ & Hbase & _ & _ & _ & Hmax & _).
  split.
  - apply (Hbase (-3)); [reflexivity|discriminate].
  - apply (Hmax 7); reflexivity.
Defined.

(** C8 on an exam without a weight: nothing is selected. *)
Lemma degenerate_inputs_witness :
  Forall (λ e, percentage_or_0 e = 0) [unweighted]
  ∧ (assemble absolute plain [unweighted] []).1
    = {| r_base := 25; r_max := 100; r_count := 0; r_questions := [] |}.
Proof.
  assert (Forall (λ e, percentage_or_0 e = 0) [unweighted]) as Hzero.
  { repeat constructor. }
  split; [exact Hzero|].
  destruct (degenerate_inputs absolute plain [unweighted] [])
    as (_ & _ & _ & _ & _ & _ & Hweights).
  exact (Hweights Hzero).
Defined.


(** * Further properties of the assembly *)

(** ** The selection of one exam *)

Section PickBlocksMore.
Implicit Types (b : block) (blocks pool picked : list block) (target : Z).

Lemma questionCount_nonneg (bs : list block) : 0 ≤ questionCount bs.
Proof. apply len_nonneg. Qed.

(** The greedy walk with what it leaves behind: every block it skipped
    would still overflow the target at the end of the walk. *)
Lemma pick_loop_rest target pool picked0 count0 :
  ∃ sub rest,
    fold_left (pick_step target) pool (picked0, count0)
      = (picked0 ++ sub, count0 + questionCount sub)
    ∧ sub `sublist_of` pool
    ∧ pool ≡ₚ sub ++ rest
    ∧ (count0 ≤ target → count0 + questionCount sub ≤ target)
    ∧ Forall (λ b, target < count0 + questionCount sub + len b) rest.
Proof.
  revert picked0 count0.
  induction pool as [|b pool IH]; intros picked0 count0; simpl.
  - exists [], []. rewrite app_nil_r. unfold questionCount, len. simpl.
    split_and!; [f_equal; lia|done|done|lia|done].
  - destruct (Z.leb_spec (count0 + len b) target) as [Hfit|Hover].
    + destruct (IH (picked0 ++ [b]) (count0 + len b))
        as (sub & rest & -> & Hsub & Hperm & Hle & Hrest).
      exists (b :: sub), rest. rewrite questionCount_cons, <- (assoc_L (++)).
      split_and!; [f_equal; lia|by constructor|by simpl; rewrite Hperm|lia|].
      eapply Forall_impl; [exact Hrest|]. intros b' ?; simpl in *; lia.
    + destruct (IH picked0 count0) as (sub & rest & -> & Hsub & Hperm & Hle & Hrest).
      exists sub, (b :: rest).
      split_and!; [done|by constructor|by rewrite Hperm, Permutation_middle|done|].
      constructor; [|done]. pose proof (questionCount_nonneg sub). lia.
Qed.

(** On a pool of one-question blocks the walk takes blocks until the target
    is reached. *)
Lemma pick_loop_singletons target pool picked0 count0 :
  Forall (λ b, len b = 1) pool → count0 ≤ target →
  (fold_left (pick_step target) pool (picked0, count0)).2
  = Z.min target (count0 + Z.of_nat (length pool)).
Proof.
  intros Hone. revert picked0 count0.
  induction Hone as [|b pool Hb Hone IH]; intros picked0 count0 Hle.
  - simpl. lia.
  - cbn [fold_left pick_step]. rewrite Hb.
    destruct (Z.leb_spec (count0 + 1) target) as [Hfit|Hover].
    + rewrite IH by lia. rewrite length_cons. lia.
    + rewrite IH by lia. rewrite length_cons. lia.
Qed.

(** The head of the stably sorted array is the first of the smallest
    elements of the array. *)
Lemma sort_by_head_first {A} (key : A → Z) (l : list A) (s : A) (sorted : list A) :
  sort_by key l = s :: sorted →
  ∃ l1 l2, l = l1 ++ s :: l2
           ∧ Forall (λ x, key s < key x) l1
           ∧ Forall (λ x, key s ≤ key x) l2.
Proof.
  revert s sorted. induction l as [|x l IH]; intros s sorted Hs; [done|].
  simpl in Hs. destruct (sort_by key l) as [|y ys] eqn:Hl.
  - apply sort_by_nil in Hl as ->. injection Hs as <- <-. by exists [], [].
  - destruct (IH y ys eq_refl) as (l1 & l2 & -> & Hl1 & Hl2).
    simpl in Hs. destruct (Z.leb_spec (key x) (key y)) as [Hle|Hgt].
    + injection Hs as <- <-. exists [], (l1 ++ y :: l2).
      split_and!; [done|done|].
      apply Forall_app. split; [|constructor].
      * eapply Forall_impl; [exact Hl1|]. intros; simpl in *; lia.
      * done.
      * eapply Forall_impl; [exact Hl2|]. intros; simpl in *; lia.
    + injection Hs as <- <-. exists (x :: l1), l2.
      split_and!; [done|by constructor|done].
Qed.

(** [pickBlocks] for a positive target, from the walk and what it left. *)
Lemma pickBlocks_cases blocks target r :
  0 < target →
  ∃ sub rest,
    sub `sublist_of` shuffle_with r blocks
    ∧ shuffle_with r blocks ≡ₚ sub ++ rest
    ∧ questionCount sub ≤ target
    ∧ Forall (λ b, target < questionCount sub + len b) rest
    ∧ pickFallback blocks target r
      = bool_decide (sub = [] ∧ shuffle_with r blocks ≠ [])
    ∧ (pickBlocks blocks target r).1
      = match sub, sort_by len (shuffle_with r blocks) with
        | [], smallest :: _ => [smallest]
        | _, _ => sub
        end.
Proof.
  intros Hpos. rewrite pickBlocks_positive by done.
  unfold pickFallback. destruct (Z.leb_spec target 0) as [?|_]; [lia|].
  simpl.
  destruct (pick_loop_rest target (shuffle_with r blocks) [] 0)
    as (sub & rest & -> & Hsub & Hperm & Hle & Hrest). simpl in *.
  exists sub, rest. split_and!; try done; [lia|].
  assert ((0 <? target) = true) as -> by (apply Z.ltb_lt; lia).
  rewrite andb_true_r.
  destruct sub as [|b sub], (shuffle_with r blocks) as [|b0 pool]; simpl;
    try done;
    case_bool_decide as Hd; try done;
    first [by destruct Hd | by exfalso; apply Hd].
Qed.

(** X1.  The selection of an exam lists blocks of the shuffled pool, in the
    order of the pool and none of them twice: it is a subsequence of the
    shuffled blocks, hence holds no block more often than the exam has it. *)
Theorem pickBlocks_pool_order blocks target r :
  (pickBlocks blocks target r).1 `sublist_of` (shuffle blocks r).1
  ∧ (pickBlocks blocks target r).1 ⊆+ blocks.
Proof.
  split; [|apply pickBlocks_submseteq]. simpl.
  destruct (Z.le_gt_cases target 0) as [Hle|Hpos].
  { rewrite pickBlocks_nonpositive by done. apply sublist_nil_l. }
  destruct (pickBlocks_cases blocks target r ltac:(lia))
    as (sub & rest & Hsub & _ & _ & _ & _ & ->).
  destruct sub as [|b sub]; [|done].
  destruct (sort_by len (shuffle_with r blocks)) as [|s sorted] eqn:Hs; [done|].
  apply sort_by_head in Hs as [Hin _]. by apply singleton_sublist_l.
Qed.

Lemma pickBlocks_picks_some blocks target r :
  0 < target → blocks ≠ [] → (pickBlocks blocks target r).1 ≠ [].
Proof.
  intros Hpos Hne.
  destruct (pickBlocks_cases blocks target r Hpos)
    as (sub & rest & _ & _ & _ & _ & _ & ->).
  destruct sub as [|b sub]; [|done].
  destruct (sort_by len (shuffle_with r blocks)) as [|s sorted] eqn:Hs; [|done].
  apply sort_by_nil in Hs.
  pose proof (shuffle_with_length r blocks) as Hlen. rewrite Hs in Hlen.
  by destruct blocks.
Qed.

(** X2.  An exam with a positive target and at least one block always
    contributes: its selection is never empty. *)
Theorem pickBlocks_nonempty blocks target r :
  0 < target → blocks ≠ [] →
  (0 < length (pickBlocks blocks target r).1)%nat.
Proof.
  intros Hpos Hne.
  pose proof (pickBlocks_picks_some blocks target r Hpos Hne).
  destruct (pickBlocks blocks target r).1; [done|simpl; lia].
Qed.

(** X3.  The selection for a positive target is a maximal fill: no block of
    the pool that was left out could be added without the selection holding
    more than [target] questions. *)
Theorem pickBlocks_maximal blocks target r :
  0 < target →
  ∃ rest,
    (shuffle blocks r).1 ≡ₚ (pickBlocks blocks target r).1 ++ rest
    ∧ Forall (λ b, target < questionCount (pickBlocks blocks target r).1 + len b)
        rest.
Proof.
  intros Hpos. simpl.
  destruct (pickBlocks_cases blocks target r Hpos)
    as (sub & rest & _ & Hperm & _ & Hrest & _ & ->).
  destruct sub as [|b sub]; [|by exists rest].
  destruct (sort_by len (shuffle_with r blocks)) as [|s sorted] eqn:Hs.
  { by exists rest. }
  apply sort_by_head in Hs as [Hin _].
  assert (target < len s) as Hbig.
  { simpl in Hperm. rewrite Hperm in Hin. rewrite Forall_forall in Hrest.
    specialize (Hrest s Hin). unfold questionCount, len in *. simpl in *. lia. }
  apply list_elem_of_split in Hin as (l1 & l2 & Hpool).
  exists (l1 ++ l2). split.
  - rewrite Hpool. simpl. by rewrite Permutation_middle.
  - apply Forall_forall. intros b _. rewrite questionCount_cons.
    pose proof (len_nonneg b). unfold questionCount, len in *. simpl in *. lia.
Qed.

(** X4.  When the fallback fires, the one block selected is the first block
    of the shuffled pool that has the smallest size: every block before it
    is strictly larger, no block after it is smaller, and it does not fit
    the target. *)
Theorem pickBlocks_fallback_first_smallest blocks target r :
  pickFallback blocks target r = true →
  ∃ before s after,
    (shuffle blocks r).1 = before ++ s :: after
    ∧ (pickBlocks blocks target r).1 = [s]
    ∧ Forall (λ b, len s < len b) before
    ∧ Forall (λ b, len s ≤ len b) after
    ∧ target < len s.
Proof.
  intros Hfb. simpl.
  assert (0 < target) as Hpos.
  { unfold pickFallback in Hfb. destruct (Z.leb_spec target 0); [done|lia]. }
  destruct (pickBlocks_cases blocks target r Hpos)
    as (sub & rest & _ & Hperm & _ & Hrest & Heq & ->).
  rewrite Hfb in Heq. symmetry in Heq.
  apply bool_decide_eq_true in Heq as [-> Hne].
  destruct (sort_by len (shuffle_with r blocks)) as [|s sorted] eqn:Hs.
  { by apply sort_by_nil in Hs. }
  destruct (sort_by_head_first len _ s sorted Hs) as (l1 & l2 & Hpool & Hl1 & Hl2).
  exists l1, s, l2. split_and!; try done.
  apply sort_by_head in Hs as [Hin _].
  simpl in Hperm. rewrite Hperm in Hin. rewrite Forall_forall in Hrest.
  specialize (Hrest s Hin). unfold questionCount, len in *. simpl in *. lia.
Qed.

Lemma pickBlocks_singletons_count blocks target r :
  Forall (λ b, len b = 1) blocks →
  questionCount (pickBlocks blocks target r).1
  = Z.max 0 (Z.min target (Z.of_nat (length blocks))).
Proof.
  intros Hone.
  destruct (Z.le_gt_cases target 0) as [Hle|Hpos].
  { rewrite pickBlocks_nonpositive by done. unfold questionCount, len. simpl. lia. }
  rewrite pickBlocks_positive by lia. simpl.
  assert (Forall (λ b, len b = 1) (shuffle_with r blocks)) as Hpool.
  { by rewrite shuffle_with_Permutation. }
  pose proof (pick_loop_singletons target _ [] 0 Hpool ltac:(lia)) as Hcount.
  rewrite shuffle_with_length in Hcount.
  destruct (pick_loop_rest target (shuffle_with r blocks) [] 0)
    as (sub & rest & Heq & _ & Hperm & _ & _).
  rewrite Heq in Hcount |- *. simpl in *.
  destruct sub as [|b sub]; [|lia].
  unfold questionCount at 1, len at 1 in Hcount. simpl in Hcount.
  assert (blocks = []) as -> by (destruct blocks; [done|simpl in *; lia]).
  simpl. unfold questionCount, len. simpl. lia.
Qed.

(** X5.  When every block holds one question, the selection holds exactly
    as many questions as the target asks for, or all of them if there are
    fewer (and none for a target that is not positive). *)
Theorem pickBlocks_singletons blocks target r :
  Forall (λ b, len b = 1) blocks →
  questionCount (pickBlocks blocks target r).1
  = Z.max 0 (Z.min target (Z.of_nat (length blocks))).
Proof. apply pickBlocks_singletons_count. Qed.

End PickBlocksMore.

(** ** The walk over the pool *)

Section TrimLoopMore.
Implicit Types (b : block) (pool : list block) (finalQuestions : list question).

(** The first block of the pool is always accepted. *)
Lemma trimLoop_head max b pool :
  ∃ tail, trimLoop max (b :: pool) [] 0 = b ++ tail.
Proof.
  simpl. destruct (0 + len b <=? max).
  - destruct (trimLoop_accepts max pool b (0 + len b)) as (accepted & -> & _). eauto.
  - exists []. by rewrite app_nil_r.
Qed.

(** The walk with what it leaves behind, when the fallback does not fire:
    every block it skipped would still overflow [max] at the end. *)
Lemma trimLoop_rest max pool finalQuestions used :
  trimFallback max pool used = false →
  ∃ accepted rest,
    pool ≡ₚ accepted ++ rest
    ∧ trimLoop max pool finalQuestions used = finalQuestions ++ mjoin accepted
    ∧ Forall (λ b, max < used + questionCount accepted + len b) rest.
Proof.
  revert finalQuestions used.
  induction pool as [|b pool IH]; intros finalQuestions used Hfb; simpl in *.
  - exists [], []. simpl. by rewrite app_nil_r.
  - destruct (Z.leb_spec (used + len b) max) as [Hfit|Hover].
    + destruct (IH (finalQuestions ++ b) (used + len b) Hfb)
        as (accepted & rest & Hperm & -> & Hrest).
      exists (b :: accepted), rest.
      split_and!; [by simpl; rewrite Hperm|by rewrite <- (assoc_L (++))|].
      rewrite questionCount_cons.
      eapply Forall_impl; [exact Hrest|]. intros b' ?; simpl in *; lia.
    + destruct (used =? 0); [done|].
      destruct (IH finalQuestions used Hfb) as (accepted & rest & Hperm & -> & Hrest).
      exists accepted, (b :: rest).
      split_and!; [by rewrite Hperm, Permutation_middle|done|].
      constructor; [|done]. pose proof (questionCount_nonneg accepted). lia.
Qed.

End TrimLoopMore.

(** ** The blocks of an exam *)

Lemma buildBlocksForExam_some (e : exam) :
  questions e ≠ [] → buildBlocksForExam e ≠ [].
Proof.
  intros Hne Hnil. apply Hne.
  pose proof (buildBlocksForExam_Permutation e) as Hperm.
  rewrite Hnil in Hperm. simpl in Hperm. by apply Permutation_nil in Hperm.
Qed.

Lemma bucket_setId (k : string) (qs : list question) :
  k ≠ "" → bucket k qs = List.filter (λ q, bool_decide (setId q = Some k)) qs.
Proof.
  intros Hk. unfold bucket. apply filter_ext. intros q.
  unfold in_group, truthy_setId. destruct (setId q) as [s|].
  - destruct (String.eqb_spec s "") as [Hs|Hs].
    + symmetry. apply bool_decide_eq_false. congruence.
    + destruct (String.eqb_spec s k) as [Hsk|Hsk].
      * symmetry. apply bool_decide_eq_true. congruence.
      * symmetry. apply bool_decide_eq_false. congruence.
  - symmetry. by apply bool_decide_eq_false.
Qed.

(** Every block built from an exam is the whole of one of its sets, in
    order, or one of its questions without a set. *)
Lemma buildBlocksForExam_blockOf (e : exam) (b : block) :
  b ∈ buildBlocksForExam e → blockOf e b.
Proof.
  intros Hb. pose proof (buildBlocksForExam_nonempty e b Hb) as Hne.
  revert Hb. rewrite buildBlocksForExam_eq, elem_of_app, !list_elem_of_fmap.
  intros [(k & -> & Hk)|(q & -> & Hq)].
  - left. exists k.
    apply elem_of_group_ids in Hk as (q & Hq & Hqk).
    assert (k ≠ "") as Hk.
    { unfold truthy_setId in Hqk. destruct (setId q) as [s|]; [|done].
      destruct (String.eqb_spec s ""); congruence. }
    simpl. rewrite <- (bucket_setId k (questions e) Hk).
    split_and!; [done|done|apply sort_by_Permutation| |].
    + exact (sort_by_sorted orderKey (bucket k (questions e))).
    + intros z. exact (sort_by_stable orderKey z (bucket k (questions e))).
  - right. exists q. apply list_elem_of_In, filter_In in Hq as [Hq Hun].
    split_and!; [done|by apply list_elem_of_In|].
    unfold ungrouped, truthy_setId in Hun. destruct (setId q) as [s|]; [|by left].
    destruct (String.eqb_spec s "") as [Hs|]; [right; congruence|done].
Qed.

(** ** The loop over the exams *)

Lemma collectBlocks_some (base : Z) (exams : list exam) (allBlocks : list block)
    (r : Rand) :
  allBlocks ≠ []
  ∨ (∃ e, e ∈ exams ∧ 0 < targetCount base e ∧ questions e ≠ []) →
  (collectBlocks base exams allBlocks r).1 ≠ [].
Proof.
  revert allBlocks r. induction exams as [|e exams IH]; intros allBlocks r Hsome.
  - destruct Hsome as [?|(e & ?%elem_of_nil & _)]; done.
  - simpl. unfold bind.
    destruct (pickBlocks (buildBlocksForExam e) (targetCount base e) r)
      as [chosenBlocks r'] eqn:Hpick.
    apply IH. destruct Hsome as [Hne|(e' & [->|Hin]%elem_of_cons & Hpos & Hqs)].
    + left. by destruct allBlocks.
    + left. pose proof (pickBlocks_picks_some (buildBlocksForExam e)
        (targetCount base e) r Hpos (buildBlocksForExam_some e Hqs)) as Hch.
      rewrite Hpick in Hch. simpl in Hch.
      intros [_ ?]%app_eq_nil. done.
    + right. eauto.
Qed.

(** ** The response *)

Section AssemblyMore.
Variable toAbsoluteImageUrl : option string → option string.
Implicit Types (req : request) (exams : list exam) (r : Rand).

Local Abbreviation normalize := (normalize toAbsoluteImageUrl).
Local Abbreviation assemble := (assemble toAbsoluteImageUrl).

(** X6.  An exam that has a positive target and at least one question makes
    the response non-empty, whatever the other exams, [max] and the
    shuffles. *)
Theorem assemble_nonempty req exams r (e : exam) :
  e ∈ exams → 0 < targetCount (effective_base req) e → questions e ≠ [] →
  0 < r_count (assemble req exams r).1.
Proof.
  intros He Hpos Hqs. rewrite assemble_eq. simpl. rewrite length_fmap.
  pose proof (shuffledPool_submseteq (effective_base req) exams r) as Hsub.
  assert ((shuffledPool (effective_base req) exams r).1 ≠ []) as Hne.
  { unfold shuffledPool, bind.
    pose proof (collectBlocks_some (effective_base req) exams [] r) as Hsome.
    destruct (collectBlocks _ _ [] r) as [allBlocks r']. simpl in *.
    intros Hnil. apply Hsome; [right; eauto|].
    apply Permutation_nil. rewrite <- Hnil. by rewrite shuffle_with_Permutation. }
  destruct (shuffledPool (effective_base req) exams r).1 as [|b pool]; [done|].
  destruct (trimLoop_head (effective_max req) b pool) as (tail & ->).
  assert (b ≠ []) as Hb.
  { apply (all_blocks_nonempty exams). eapply elem_of_submseteq; [left|exact Hsub]. }
  rewrite length_app. destruct b; [done|simpl; lia].
Qed.

(** X7.  When the global fallback does not fire the response is a maximal
    fill of [max]: the pool splits into the blocks accepted, which make the
    response, and blocks none of which could be added without the count
    exceeding [max]. *)
Theorem assemble_maximal req exams r :
  let resp := (assemble req exams r).1 in
  let pool := (shuffledPool (r_base resp) exams r).1 in
  trimFallback (r_max resp) pool 0 = false →
  ∃ accepted rest,
    pool ≡ₚ accepted ++ rest
    ∧ r_questions resp = normalize (query_absoluteImages req) <$> mjoin accepted
    ∧ Forall (λ b, r_max resp < r_count resp + len b) rest.
Proof.
  rewrite assemble_eq. simpl. intros Hfb.
  destruct (trimLoop_rest _ _ [] 0 Hfb) as (accepted & rest & Hperm & -> & Hrest).
  exists accepted, rest. split_and!; [done|done|].
  rewrite length_fmap. eapply Forall_impl; [exact Hrest|].
  intros b Hb. unfold questionCount, len in *. simpl in *. lia.
Qed.

(** X9.  Every set comes out whole and in order: the response is a
    sequence of blocks built from the exams, each of them either all the
    questions of one exam that carry one set id, in ascending [setOrder]
    with ties in the order of the exam, or a single question without a set
    id. *)
Theorem assemble_blocks_well_formed req exams r :
  ∃ accepted,
    r_questions (assemble req exams r).1
    = normalize (query_absoluteImages req) <$> mjoin accepted
    ∧ accepted ⊆+ all_blocks exams
    ∧ Forall (λ b, ∃ e, e ∈ exams ∧ blockOf e b) accepted.
Proof.
  destruct (assemble_whole_blocks toAbsoluteImageUrl req exams r)
    as (accepted & Hsub & ->).
  exists accepted. split_and!; [done|done|].
  apply Forall_forall. intros b Hb.
  pose proof (elem_of_submseteq _ _ _ Hb Hsub) as Hall.
  apply list_elem_of_join in Hall as (bs & Hbs & (e & -> & He)%list_elem_of_fmap).
  exists e. split; [done|]. by apply buildBlocksForExam_blockOf.
Qed.

End AssemblyMore.

Lemma Math_round_div_mono (base a b : Z) :
  0 ≤ base → a ≤ b → Math_round_div (base * a) 100 ≤ Math_round_div (base * b) 100.
Proof.
  intros Hbase Hab. unfold Math_round_div. apply Z.div_le_mono; [lia|nia].
Qed.

Lemma Math_round_div_full (base : Z) : Math_round_div (base * 100) 100 = base.
Proof.
  unfold Math_round_div. symmetry. apply (Z.div_unique_pos _ _ _ 100); lia.
Qed.

(** X10.  For an integer base that is not negative and whose hundredfold
    is below 2^53, the target the code computes grows with the weight over
    the integer weights from -100 to 100: a weight between 0 and 100 gives
    a target between 0 and [base], and weight 100 gives [base] itself. *)
Theorem targetCount_monotone (base p p' : Z) :
  0 ≤ base → 100 * base < 2 ^ 53 → -100 ≤ p → p ≤ p' → p' ≤ 100 →
  ∃ t t' : Z,
    IEEE.integerValue (IEEE.targetCount (IEEE.ofZ base) (Some (IEEE.ofZ p))) = Some t
    ∧ IEEE.integerValue (IEEE.targetCount (IEEE.ofZ base) (Some (IEEE.ofZ p'))) = Some t'
    ∧ t ≤ t' ∧ t' ≤ base
    ∧ (0 ≤ p → 0 ≤ t)
    ∧ (p' = 100 → t' = base).
Proof.
  intros Hbase Hfull Hlow Hp Hhigh.
  change (2 ^ 53) with 9007199254740992 in Hfull.
  exists (Math_round_div (base * p) 100), (Math_round_div (base * p') 100).
  split_and!.
  - apply targetCount_exact; change (2 ^ 53) with 9007199254740992; nia.
  - apply targetCount_exact; change (2 ^ 53) with 9007199254740992; nia.
  - by apply Math_round_div_mono.
  - rewrite <- (Math_round_div_full base) at 2. by apply Math_round_div_mono.
  - intros Hp0. etrans; [|apply (Math_round_div_mono base 0 p); lia].
    by rewrite Z.mul_0_r.
  - intros ->. apply Math_round_div_full.
Qed.

(** * Further properties: image references *)

Section Trim.
Implicit Types (s t : string) (c : ascii).

Lemma append_cons c s t :
  String.append (String c s) t = String c (String.append s t).
Proof. reflexivity. Qed.

Lemma append_nil t : String.append "" t = t.
Proof. reflexivity. Qed.

Lemma trimEnd_idem s : trimEnd (trimEnd s) = trimEnd s.
Proof.
  induction s as [|c s IH]; [done|]. simpl.
  destruct (isWhiteSpace c && String.eqb (trimEnd s) "")%bool eqn:Hc; [done|].
  simpl. by rewrite IH, Hc.
Qed.

Lemma trimStart_clean s : startsClean (trimStart s).
Proof.
  induction s as [|c s IH]; [done|]. simpl.
  by destruct (isWhiteSpace c) eqn:Hc.
Qed.

Lemma trimStart_fixed s : startsClean s → trimStart s = s.
Proof. destruct s as [|c s]; [done|]. simpl. by intros ->. Qed.

Lemma trimEnd_clean s : startsClean s → startsClean (trimEnd s).
Proof.
  destruct s as [|c s]; [done|]. intros Hc. simpl in *. rewrite Hc. exact Hc.
Qed.

Lemma trim_clean s : startsClean (trim s).
Proof. apply trimEnd_clean, trimStart_clean. Qed.

Lemma trim_idem s : trim (trim s) = trim s.
Proof.
  unfold trim at 1. rewrite trimStart_fixed by apply trim_clean.
  apply trimEnd_idem.
Qed.

Lemma trimEnd_trim s : trimEnd (trim s) = trim s.
Proof. apply trimEnd_idem. Qed.

Lemma eqb_empty s : String.eqb s "" = false → s ≠ "".
Proof. by intros H ->. Qed.

(** What comes before a tail that [trimEnd] does not erase is kept. *)
Lemma trimEnd_append s t :
  trimEnd t ≠ "" → trimEnd (String.append s t) = String.append s (trimEnd t).
Proof.
  intros Ht. induction s as [|c s IH]; [done|].
  rewrite !append_cons. simpl. rewrite IH.
  destruct (String.append s (trimEnd t)) as [|c' u] eqn:Hu.
  - destruct s; [done|by rewrite append_cons in Hu].
  - by rewrite andb_false_r.
Qed.

(** A string is left alone by [trim] when it starts with something that is
    kept and ends with a tail that [trimEnd] leaves alone. *)
Lemma trim_fixed_append s t :
  s ≠ "" → startsClean s → trimEnd t = t → t ≠ "" →
  trim (String.append s t) = String.append s t.
Proof.
  intros Hs Hclean Ht Hne. unfold trim.
  rewrite trimStart_fixed by (by destruct s).
  rewrite trimEnd_append by (by rewrite Ht). by rewrite Ht.
Qed.

Lemma trimEnd_tail c s : trimEnd (String c s) = String c s → trimEnd s = s.
Proof.
  simpl. destruct (isWhiteSpace c && String.eqb (trimEnd s) "")%bool; [done|].
  by intros [= ->].
Qed.

Lemma trimEnd_slash s : trimEnd s = s → trimEnd (String "/" s) = String "/" s.
Proof. simpl. by intros ->. Qed.

Lemma trimEnd_dropLeadingSlash s :
  trimEnd s = s → trimEnd (dropLeadingSlash s) = dropLeadingSlash s.
Proof.
  destruct s as [|c s]; [done|]. intros Hfix.
  destruct (ascii_dec c "/") as [->|Hc]; [exact (trimEnd_tail _ _ Hfix)|].
  assert (dropLeadingSlash (String c s) = String c s) as ->; [|done].
  by destruct c as [[] [] [] [] [] [] [] []].
Qed.

End Trim.

Section ToAbsoluteImageUrl.
Implicit Types (req : origin) (image : option string) (src u : string).

Lemma originBase_web req (rest : string) :
  webProtocol req →
  isHttpUrl (String.append (originBase req) rest) = true
  ∧ startsClean (originBase req)
  ∧ originBase req ≠ "".
Proof.
  unfold originBase. by intros [-> | ->]; rewrite !append_cons, !append_nil.
Qed.

Lemma prefix_cons (a b : ascii) (s1 s2 : string) :
  String.prefix (String a s1) (String b s2) = true → a = b.
Proof.
  change (String.prefix (String a s1) (String b s2))
    with (if ascii_dec a b then String.prefix s1 s2 else false).
  by destruct (ascii_dec a b).
Qed.

Lemma prefix_uploads src :
  String.prefix "/uploads" src = true →
  String.append "/" (dropLeadingSlash src) = src.
Proof.
  destruct src as [|c src]; [done|].
  intros <-%prefix_cons. by rewrite append_cons, append_nil.
Qed.

(** The result, for an image that is neither blank nor absolute already. *)
Lemma toAbsoluteImageUrl_relative req (img : string) :
  trim img ≠ "" → isHttpUrl (trim img) = false →
  toAbsoluteImageUrl req (Some img)
  = Some (String.append (originBase req)
            (String.append "/" (dropLeadingSlash (trim img)))).
Proof.
  intros Hne Hrel. unfold toAbsoluteImageUrl.
  destruct (String.eqb_spec img "") as [->|_]; [done|].
  destruct (String.eqb_spec (trim img) "") as [?|_]; [done|].
  simpl. rewrite Hrel.
  destruct (String.prefix "/uploads" (trim img)) eqn:Hup; [|done].
  by rewrite prefix_uploads.
Qed.

Lemma toAbsoluteImageUrl_cases req image u :
  toAbsoluteImageUrl req image = Some u →
  ∃ img, image = Some img ∧ trim img ≠ ""
    ∧ ((isHttpUrl (trim img) = true ∧ u = trim img)
       ∨ (isHttpUrl (trim img) = false
          ∧ u = String.append (originBase req)
                  (String.append "/" (dropLeadingSlash (trim img))))).
Proof.
  destruct image as [img|]; [|done]. intros Hu. exists img.
  assert (trim img ≠ "") as Hne.
  { intros Hnil. unfold toAbsoluteImageUrl in Hu. rewrite Hnil in Hu.
    by rewrite orb_true_r in Hu. }
  split_and!; [done|done|].
  destruct (isHttpUrl (trim img)) eqn:Habs.
  - left. split; [done|]. unfold toAbsoluteImageUrl in Hu.
    destruct (String.eqb img "" || String.eqb (trim img) "")%bool; [done|].
    simpl in Hu. rewrite Habs in Hu. congruence.
  - right. split; [done|].
    rewrite toAbsoluteImageUrl_relative in Hu by done. congruence.
Qed.

(** What [toAbsoluteImageUrl] returns is absolute and trimmed. *)
Lemma toAbsoluteImageUrl_result req image u :
  webProtocol req → toAbsoluteImageUrl req image = Some u →
  isHttpUrl u = true ∧ trim u = u ∧ u ≠ "".
Proof.
  intros Hweb (img & -> & Hne & [[Habs ->]|[Hrel ->]])%toAbsoluteImageUrl_cases.
  - split_and!; [done|apply trim_idem|done].
  - destruct (originBase_web req (String.append "/" (dropLeadingSlash (trim img))) Hweb)
      as (Hhttp & Hclean & Hbase).
    split_and!; [done| |].
    + apply trim_fixed_append; [done|done| |done].
      apply trimEnd_slash, trimEnd_dropLeadingSlash, trimEnd_trim.
    + intros Hnil. by destruct (originBase req).
Qed.

(** X11.  [toAbsoluteImageUrl] returns [null] exactly for an image that is
    missing or blank: [null], the empty string, or white space only. *)
Theorem toAbsoluteImageUrl_null req image :
  toAbsoluteImageUrl req image = None
  ↔ image = None ∨ ∃ img, image = Some img ∧ trim img = "".
Proof.
  split.
  - destruct image as [img|]; [|by left]. intros Hnone. right. exists img.
    split; [done|]. unfold toAbsoluteImageUrl in Hnone.
    destruct (String.eqb_spec img "") as [Heq|_]; [by rewrite Heq|].
    destruct (String.eqb_spec (trim img) "") as [?|_]; [done|].
    simpl in Hnone. by repeat case_match.
  - intros [->|(img & -> & Hnil)]; [done|].
    unfold toAbsoluteImageUrl. by rewrite Hnil, orb_true_r.
Qed.

(** X12.  On a request over HTTP or HTTPS every reference returned is an
    absolute URL, not blank and with no white space around it. *)
Theorem toAbsoluteImageUrl_absolute req image u :
  webProtocol req → toAbsoluteImageUrl req image = Some u →
  isHttpUrl u = true ∧ trim u = u ∧ String.eqb u "" = false.
Proof.
  intros Hweb Hu.
  destruct (toAbsoluteImageUrl_result req image u Hweb Hu) as (? & ? & Hne).
  split_and!; [done|done|]. by destruct (String.eqb_spec u "").
Qed.

(** X13.  On a request over HTTP or HTTPS [toAbsoluteImageUrl] is
    idempotent: rewriting a rewritten reference changes nothing. *)
Theorem toAbsoluteImageUrl_idempotent req image :
  webProtocol req →
  toAbsoluteImageUrl req (toAbsoluteImageUrl req image)
  = toAbsoluteImageUrl req image.
Proof.
  intros Hweb. destruct (toAbsoluteImageUrl req image) as [u|] eqn:Hu; [|done].
  destruct (toAbsoluteImageUrl_result req image u Hweb Hu) as (Habs & Htrim & Hne).
  unfold toAbsoluteImageUrl. rewrite Htrim.
  destruct (String.eqb_spec u "") as [?|_]; [done|]. simpl. by rewrite Habs.
Qed.

(** X14.  A reference that is not an absolute URL is put under the origin
    of the request by one rule, whether or not it starts with [/uploads]:
    the origin, a slash, and the trimmed reference without its leading
    slash if it has one.  So a reference and the same reference with a slash
    before it give the same URL. *)
Theorem toAbsoluteImageUrl_one_rule req (img : string) :
  String.eqb (trim img) "" = false → isHttpUrl (trim img) = false →
  toAbsoluteImageUrl req (Some img)
  = Some (String.append (originBase req)
            (String.append "/" (dropLeadingSlash (trim img)))).
Proof.
  intros Hne%eqb_empty Hrel. by apply toAbsoluteImageUrl_relative.
Qed.

(** X15.  With [absoluteImages] on (the default) and a request over HTTP or
    HTTPS, every question of the assembled response has either no image or
    an absolute image URL. *)
Theorem assemble_images_absolute (o : origin) (req : request)
    (exams : list exam) (r : Rand) :
  webProtocol o → query_absoluteImages req = true →
  Forall (λ q, match image q with
               | None => True
               | Some u => isHttpUrl u = true
               end)
    (r_questions (assemble (toAbsoluteImageUrl o) req exams r).1).
Proof.
  intros Hweb Habs. rewrite assemble_eq. simpl. rewrite Habs.
  apply Forall_fmap, Forall_forall. intros q _. simpl.
  destruct (toAbsoluteImageUrl o (image q)) as [u|] eqn:Hu; [|done].
  by destruct (toAbsoluteImageUrl_result o (image q) u Hweb Hu).
Qed.

End ToAbsoluteImageUrl.

(** * Further properties: question payloads *)

Section QuestionPayloads.
Implicit Types (text : option string) (options : jsoptions)
  (correctAnswer : jsindex) (d : questionDoc).

Lemma validate_accepted text options correctAnswer :
  validateQuestionPayload text options correctAnswer = None
  ↔ ∃ items idx,
      truthyText text = true
      ∧ options = Options items ∧ 2 ≤ Z.of_nat (length items)
      ∧ correctAnswer = Integer idx ∧ 0 ≤ idx < Z.of_nat (length items).
Proof.
  unfold validateQuestionPayload. split.
  - destruct (truthyText text); [|done].
    destruct options as [|items]; [done|].
    destruct (Z.ltb_spec (Z.of_nat (length items)) 2) as [?|Hlen]; [done|].
    destruct correctAnswer as [|idx]; [done|].
    destruct (Z.ltb_spec idx 0) as [?|Hidx]; [done|].
    destruct (Z.leb_spec (Z.of_nat (length items)) idx) as [?|Hlt]; [done|].
    intros _. exists items, idx. split_and!; try done; lia.
  - intros (items & idx & -> & -> & Hlen & -> & Hidx).
    destruct (Z.ltb_spec (Z.of_nat (length items)) 2) as [?|_]; [lia|].
    destruct (Z.ltb_spec idx 0) as [?|_]; [lia|].
    by destruct (Z.leb_spec (Z.of_nat (length items)) idx) as [?|_]; [lia|].
Qed.


(** X17.  A question added through the route, and a question after an
    update that carries [correctAnswer], has a correct answer that is one of
    its options. *)
Theorem routes_keep_answer_in_range (now : Z) (b : newQuestionBody)
    (stored : option questionDoc) (u : questionUpdate) (d : questionDoc) :
  (addQuestion true now b = Ok d → answerInRange d)
  ∧ (upd_correctAnswer u ≠ None → updateQuestion stored u = Ok d →
     answerInRange d).
Proof.
  unfold answerInRange. split.
  - unfold addQuestion. simpl.
    destruct (validateQuestionPayload _ _ _) eqn:Hv; [done|].
    apply validate_accepted in Hv as (items & idx & _ & -> & _ & -> & Hidx).
    intros [= <-]. simpl. lia.
  - intros Hgiven. unfold updateQuestion.
    destruct stored as [d0|]; [|done].
    destruct (upd_correctAnswer u) as [[|idx]|]; [| |done].
    + by repeat case_match.
    + repeat case_match; try done; intros [= <-]; simpl in *; simplify_eq; lia.
Qed.

(** X18.  An update that carries [options] but no [correctAnswer] is not
    checked against the stored answer: whenever the new array has at least
    two items and the rest of the body is acceptable, the update goes
    through, and if the new array is not longer than the stored index the
    document is left with a correct answer that is none of its options. *)
Theorem update_options_alone (d0 : questionDoc) (items : list string)
    (u : questionUpdate) :
  upd_options u = Some (Options items) → upd_correctAnswer u = None →
  upd_setOrder u ≠ Some None →
  (2 ≤ length items)%nat →
  ∃ d, updateQuestion (Some d0) u = Ok d
       ∧ doc_options d = items
       ∧ doc_correctAnswer d = doc_correctAnswer d0
       ∧ (Z.of_nat (length items) ≤ doc_correctAnswer d0 → ¬ answerInRange d).
Proof.
  intros Hopt Hidx Hord Hlen.
  assert (noUpdates u = false) as Hno.
  { unfold noUpdates. rewrite Hopt. by repeat case_match. }
  unfold updateQuestion. rewrite Hopt, Hidx, Hno.
  destruct (Z.ltb_spec (Z.of_nat (length items)) 2) as [?|_]; [lia|].
  destruct (upd_setOrder u) as [[ord|]|]; [|done|];
    (eexists; split_and!; [done|done|by destruct (upd_text u)|]);
    unfold answerInRange; simpl; destruct (upd_text u); simpl; lia.
Qed.

End QuestionPayloads.

(** * Further properties: the document store *)

Section Store.
Implicit Types (d : store) (a : action) (now currentYear : Z).

(** ** The mirror of the public notes *)

Lemma isPublic_with_note_update name by_ public now (n : noteDoc) :
  isPublic (with_note_update name by_ public now n) = default (isPublic n) public.
Proof. done. Qed.

Lemma uploadNote_mirrorInSync now newId name orig public by_ url path d :
  mirrorInSync d → notesCol d !! newId = None →
  mirrorInSync (uploadNote now newId name orig public by_ url path d).2.
Proof.
  intros Hinv Hfresh id. specialize (Hinv id). unfold uploadNote. simpl.
  destruct (decide (id = newId)) as [->|Hne].
  - rewrite lookup_insert_eq. rewrite Hfresh in Hinv.
    destruct public; simpl; [by rewrite lookup_insert_eq|done].
  - rewrite lookup_insert_ne by done.
    destruct public; simpl; [by rewrite lookup_insert_ne|done].
Qed.

Lemma patchNote_mirrorInSync now id0 name public by_ d :
  mirrorInSync d → mirrorInSync (patchNote now id0 name public by_ d).2.
Proof.
  intros Hinv id. pose proof (Hinv id0) as H0. specialize (Hinv id).
  unfold patchNote. destruct (notesCol d !! id0) as [prev|] eqn:Hprev; [|done].
  set (upd := with_note_update name by_ public now).
  assert (isPublic (upd prev) = default (isPublic prev) public) as Hpub by done.
  destruct (default (isPublic prev) public) eqn:Hnew, (isPublic prev) eqn:Hold;
    simpl.
  - (* stays public *)
    rewrite H0. simpl.
    destruct (decide (id = id0)) as [->|Hne].
    + by rewrite !lookup_insert_eq, Hpub.
    + by rewrite !lookup_insert_ne.
  - (* became public *)
    destruct (decide (id = id0)) as [->|Hne].
    + by rewrite !lookup_insert_eq, Hpub.
    + by rewrite !lookup_insert_ne.
  - (* became private *)
    destruct (decide (id = id0)) as [->|Hne].
    + by rewrite lookup_insert_eq, lookup_delete_eq, Hpub.
    + by rewrite lookup_insert_ne, lookup_delete_ne.
  - (* stays private *)
    destruct (decide (id = id0)) as [->|Hne].
    + by rewrite lookup_insert_eq, Hpub, H0.
    + by rewrite lookup_insert_ne.
Qed.

Lemma deleteNote_mirrorInSync id0 d :
  mirrorInSync d → mirrorInSync (deleteNote id0 d).2.
Proof.
  intros Hinv id. specialize (Hinv id). unfold deleteNote.
  destruct (notesCol d !! id0); [|done]. simpl.
  destruct (decide (id = id0)) as [->|Hne].
  - by rewrite !lookup_delete_eq.
  - by rewrite !lookup_delete_ne.
Qed.

(** The routes of users and requests leave the notes alone. *)
Lemma serve_notes_untouched now currentYear a d :
  match a with
  | UploadNote _ _ _ _ _ _ _ | PatchNote _ _ _ _ | DeleteNote _ => True
  | _ => notesCol (serve now currentYear a d).2 = notesCol d
         ∧ publicNotesCol (serve now currentYear a d).2 = publicNotesCol d
  end.
Proof.
  destruct a; simpl; try done;
    unfold register, updateScore, updateUser, touchLastNotified,
      submitRequest, approveRequest, rejectRequest;
    by repeat case_match.
Qed.

Lemma serve_mirrorInSync now currentYear a d :
  mirrorInSync d → freshIds a d → mirrorInSync (serve now currentYear a d).2.
Proof.
  intros Hinv Hfresh.
  pose proof (serve_notes_untouched now currentYear a d) as Hsame.
  destruct a;
    try (by apply uploadNote_mirrorInSync);
    try (by apply patchNote_mirrorInSync);
    try (by apply deleteNote_mirrorInSync);
    destruct Hsame as [Hn Hp]; intros k; rewrite Hn, Hp; apply Hinv.
Qed.

(** X19.  In every store the server can reach the mirror of the public
    notes is in step with the notes: a note is in the mirror exactly when it
    is public, and there it is the note itself. *)
Theorem reachable_mirrorInSync d : reachable d → mirrorInSync d.
Proof.
  induction 1 as [|now currentYear a d Hd IH Hfresh].
  - intros id. simpl. by rewrite !lookup_empty.
  - by apply serve_mirrorInSync.
Qed.

(** ** Validation requests *)

(** Writing a user whose [request_sent] is what the user of that id had, or
    unset for an id without a user, keeps requests and flags in agreement. *)
Lemma requestsConsistent_user d (id : string) (u' : userDoc) :
  match usersCol d !! id with
  | Some u => request_sent u' = request_sent u
  | None => request_sent u' = false
  end →
  requestsConsistent d →
  requestsConsistent (set_users d (<[id := u']> (usersCol d))).
Proof.
  intros Hflag (R1 & R2 & R3). split_and!; simpl.
  - intros rid rq Hrq. destruct (R1 rid rq Hrq) as (Hne & u & Hu & Hsent).
    split; [done|].
    destruct (decide (request_uid rq = id)) as [<-|Hother].
    + exists u'. rewrite lookup_insert_eq. rewrite Hu in Hflag. split; congruence.
    + exists u. by rewrite lookup_insert_ne.
  - exact R2.
  - intros uid0 u0 Hu0 Hsent.
    destruct (decide (uid0 = id)) as [->|Hother].
    + rewrite lookup_insert_eq in Hu0. injection Hu0 as <-.
      destruct (usersCol d !! id) as [u|] eqn:Hu; [|congruence].
      apply (R3 id u Hu). congruence.
    + rewrite lookup_insert_ne in Hu0 by done. by apply (R3 uid0 u0).
Qed.

Lemma submitRequest_consistent now newId id t d :
  requestsConsistent d → requestsCol d !! newId = None →
  requestsConsistent (submitRequest now newId id t d).2.
Proof.
  intros (R1 & R2 & R3) Hfresh. unfold submitRequest.
  destruct (String.eqb_spec id "") as [?|Hid]; [done|].
  destruct (usersCol d !! id) as [u|] eqn:Hu; [|done].
  destruct (request_sent u) eqn:Hsent; [done|]. simpl.
  assert (∀ rid rq, requestsCol d !! rid = Some rq → request_uid rq ≠ id) as Hnone.
  { intros rid rq Hrq Heq. destruct (R1 rid rq Hrq) as (_ & u0 & Hu0 & Hs0).
    rewrite Heq, Hu in Hu0. congruence. }
  split_and!; simpl.
  - intros rid rq Hrq. destruct (decide (rid = newId)) as [->|Hother].
    + rewrite lookup_insert_eq in Hrq. injection Hrq as <-. simpl.
      split; [done|]. eexists. by rewrite lookup_insert_eq.
    + rewrite lookup_insert_ne in Hrq by done.
      destruct (R1 rid rq Hrq) as (Hne & u0 & Hu0 & Hs0). split; [done|].
      exists u0. rewrite lookup_insert_ne; [done|].
      intros Heq. by apply (Hnone rid rq).
  - intros id1 id2 rq1 rq2 H1 H2 Heq.
    destruct (decide (id1 = newId)) as [->|Hn1], (decide (id2 = newId)) as [->|Hn2];
      [done| | |].
    + rewrite lookup_insert_eq in H1. rewrite lookup_insert_ne in H2 by done.
      injection H1 as <-. simpl in Heq. by destruct (Hnone id2 rq2).
    + rewrite lookup_insert_eq in H2. rewrite lookup_insert_ne in H1 by done.
      injection H2 as <-. simpl in Heq. by destruct (Hnone id1 rq1).
    + rewrite lookup_insert_ne in H1, H2 by done. by eapply R2.
  - intros uid0 u0 Hu0 Hs0. destruct (decide (uid0 = id)) as [->|Hother].
    + exists newId. eexists. by rewrite lookup_insert_eq.
    + rewrite lookup_insert_ne in Hu0 by done.
      destruct (R3 uid0 u0 Hu0 Hs0) as (rid & rq & Hrq & Hrid).
      exists rid, rq. split; [|done].
      rewrite lookup_insert_ne; [done|]. intros ->. congruence.
Qed.

(** Closing a request, with its user's flag cleared. *)
Lemma closeRequest_consistent d (rid : string) (rq : requestDoc) (u' : userDoc) :
  requestsConsistent d → requestsCol d !! rid = Some rq →
  request_sent u' = false →
  requestsConsistent
    (set_users_requests d (<[request_uid rq := u']> (usersCol d))
       (delete rid (requestsCol d))).
Proof.
  intros (R1 & R2 & R3) Hrq Hflag. split_and!; simpl.
  - intros rid' rq' Hrq'.
    assert (rid' ≠ rid) as Hother by (intros ->; by rewrite lookup_delete_eq in Hrq').
    rewrite lookup_delete_ne in Hrq' by done.
    destruct (R1 rid' rq' Hrq') as (Hne & u0 & Hu0 & Hs0). split; [done|].
    exists u0. rewrite lookup_insert_ne; [done|].
    intros Heq. apply Hother. by eapply R2.
  - intros id1 id2 rq1 rq2 H1 H2.
    apply lookup_delete_Some in H1 as [_ H1], H2 as [_ H2]. by eapply R2.
  - intros uid0 u0 Hu0 Hs0.
    destruct (decide (uid0 = request_uid rq)) as [->|Hother].
    + rewrite lookup_insert_eq in Hu0. congruence.
    + rewrite lookup_insert_ne in Hu0 by done.
      destruct (R3 uid0 u0 Hu0 Hs0) as (rid' & rq' & Hrq' & Hrid').
      exists rid', rq'. split; [|done].
      rewrite lookup_delete_ne; [done|]. intros ->. congruence.
Qed.

Lemma serve_requestsConsistent now currentYear a d :
  requestsConsistent d → freshIds a d →
  requestsConsistent (serve now currentYear a d).2.
Proof.
  intros Hinv Hfresh. destruct a; simpl.
  - unfold register. repeat case_match; try done.
    apply requestsConsistent_user; [|done]. by simplify_option_eq.
  - unfold updateScore. destruct (usersCol d !! uid0) eqn:Hu; [|done].
    apply requestsConsistent_user; [|done]. by rewrite Hu.
  - unfold updateUser. destruct (usersCol d !! uid0) eqn:Hu;
      repeat case_match; try done;
      (apply requestsConsistent_user; [|done]); by rewrite Hu.
  - unfold touchLastNotified. destruct (usersCol d !! uid0) eqn:Hu; [|done].
    apply requestsConsistent_user; [|done]. by rewrite Hu.
  - by apply submitRequest_consistent.
  - unfold approveRequest. destruct (requestsCol d !! id) as [rq|] eqn:Hrq; [|done].
    destruct (if String.eqb (request_uid rq) "" then None
              else usersCol d !! request_uid rq); [|done].
    by apply closeRequest_consistent.
  - unfold rejectRequest. destruct (requestsCol d !! id) as [rq|] eqn:Hrq; [|done].
    destruct (if String.eqb (request_uid rq) "" then None
              else usersCol d !! request_uid rq); [|done].
    by apply closeRequest_consistent.
  - done.
  - unfold patchNote. by repeat case_match.
  - unfold deleteNote. by repeat case_match.
Qed.

(** X20.  In every store the server can reach, pending requests and
    [request_sent] flags agree: every request belongs to a user whose flag
    is set, no user has two pending requests, and every user whose flag is
    set has a pending request. *)
Theorem reachable_requestsConsistent d : reachable d → requestsConsistent d.
Proof.
  induction 1 as [|now currentYear a d Hd IH Hfresh].
  - split_and!; simpl; intros *; by rewrite ?lookup_empty.
  - by apply serve_requestsConsistent.
Qed.

(** X21.  No route takes a validation back or removes a user: a user who
    is validated is still there, and validated, after any request. *)
Theorem validated_stays now currentYear a d (id : string) (u : userDoc) :
  usersCol d !! id = Some u → is_validated u = true →
  ∃ u', usersCol (serve now currentYear a d).2 !! id = Some u'
        ∧ is_validated u' = true.
Proof.
  intros Hu Hval.
  assert (∀ (k : string) (u0 u1 : userDoc),
            usersCol d !! k = Some u0 →
            (is_validated u0 = true → is_validated u1 = true) →
            ∃ u', <[k := u1]> (usersCol d) !! id = Some u' ∧ is_validated u' = true)
    as Hwrite.
  { intros k u0 u1 Hk Hkeep. destruct (decide (id = k)) as [->|Hne].
    - exists u1. rewrite lookup_insert_eq. split; [done|].
      apply Hkeep. congruence.
    - exists u. by rewrite lookup_insert_ne. }
  destruct a; simpl;
    unfold register, updateScore, updateUser, touchLastNotified,
      submitRequest, approveRequest, rejectRequest, uploadNote, patchNote,
      deleteNote;
    repeat case_match; simplify_eq; simpl;
    try (by eauto);
    try (eapply Hwrite; [eassumption|by simpl]).
  exists u. split; [|done]. rewrite lookup_insert_ne; [done|]. congruence.
Qed.

(** X22.  Approving a pending request always goes through when requests and
    flags agree: the answer is 200, the user of the request is validated
    with the flag cleared, the request is gone and no other request of that
    user is left. *)
Theorem approveRequest_validates d (rid : string) (rq : requestDoc) :
  requestsConsistent d → requestsCol d !! rid = Some rq →
  ∃ u d',
    approveRequest rid d = (200, d')
    ∧ usersCol d' !! request_uid rq = Some u
    ∧ is_validated u = true ∧ request_sent u = false
    ∧ ∀ rid' rq', requestsCol d' !! rid' = Some rq' →
                  String.eqb (request_uid rq') (request_uid rq) = false.
Proof.
  intros Hinv Hrq. pose proof Hinv as (R1 & R2 & R3).
  destruct (R1 rid rq Hrq) as (Hne & u & Hu & Hsent).
  unfold approveRequest. rewrite Hrq.
  destruct (String.eqb_spec (request_uid rq) "") as [?|_]; [done|]. rewrite Hu.
  eexists _, _. split_and!; [done|simpl; by rewrite lookup_insert_eq|done|done|].
  simpl. intros rid' rq' [Hother Hrq']%lookup_delete_Some.
  destruct (String.eqb_spec (request_uid rq') (request_uid rq)) as [Heq|]; [|done].
  destruct Hother. symmetry. by eapply R2.
Qed.

(** ** The list of notes *)

Lemma StronglySorted_weaken {A} (R1 R2 : A → A → Prop) (l : list A) :
  (∀ x y, R1 x y → R2 x y) → StronglySorted R1 l → StronglySorted R2 l.
Proof.
  intros Himpl. induction 1 as [|x l Hs IH Hall]; constructor; [done|].
  eapply Forall_impl; [exact Hall|]. apply Himpl.
Qed.

(** X23.  [GET /api/notes] shows a note that is not public only to a caller
    whose user document is validated; every public note is shown to every
    caller; and the notes come newest first. *)
Theorem listNotes_visibility (users : gmap string userDoc)
    (docs : list (string * noteDoc)) (uid_ : option string) :
  (∀ n, n ∈ listNotes users docs uid_ →
        n ∈ docs
        ∧ (isPublic n.2 = true
           ∨ ∃ id u, uid_ = Some id ∧ users !! id = Some u ∧ is_validated u = true))
  ∧ (∀ n, n ∈ docs → isPublic n.2 = true → n ∈ listNotes users docs uid_)
  ∧ StronglySorted (λ n1 n2, note_createdAt n2.2 ≤ note_createdAt n1.2)
      (listNotes users docs uid_).
Proof.
  unfold listNotes. split_and!.
  - intros n Hn. rewrite sort_by_Permutation in Hn.
    destruct (truthy uid_) as [id|] eqn:Hid.
    + assert (uid_ = Some id) as ->.
      { destruct uid_ as [s|]; [|done]. simpl in Hid.
        destruct (String.eqb s ""); congruence. }
      destruct (users !! id) as [u|] eqn:Hu.
      * destruct (is_validated u) eqn:Hval; [split; [done|right; eauto]|].
        apply list_elem_of_In, filter_In in Hn as [Hn ?].
        split; [by apply list_elem_of_In|by left].
      * apply list_elem_of_In, filter_In in Hn as [Hn ?].
        split; [by apply list_elem_of_In|by left].
    + apply list_elem_of_In, filter_In in Hn as [Hn ?].
      split; [by apply list_elem_of_In|by left].
  - intros n Hn Hpub. rewrite sort_by_Permutation.
    assert (n ∈ List.filter (λ d : string * noteDoc, isPublic d.2) docs) as Hfiltered.
    { apply list_elem_of_In, filter_In. split; [by apply list_elem_of_In|done]. }
    by repeat case_match.
  - eapply StronglySorted_weaken; [|apply sort_by_sorted].
    intros n1 n2. unfold key_le. simpl. lia.
Qed.

End Store.

(** * The further theorems at work *)

Import Fixtures.

Lemma requestsConsistent_empty : requestsConsistent emptyStore.
Proof. split_and!; simpl; intros *; by rewrite ?lookup_empty. Qed.

(** X2 on a pool of one block that does not fit. *)
Lemma pickBlocks_nonempty_witness :
  0 < 1 ∧ [[part1; part2]] ≠ []
  ∧ (0 < length (pickBlocks [[part1; part2]] 1 []).1)%nat.
Proof.
  assert (0 < 1) as Hpos by lia.
  assert ([[part1; part2]] ≠ []) as Hne by done.
  split_and!; [exact Hpos|exact Hne|].
  exact (pickBlocks_nonempty [[part1; part2]] 1 [] Hpos Hne).
Defined.

(** X3 on the blocks of the reading exam and a target of 1. *)
Lemma pickBlocks_maximal_witness :
  0 < 1
  ∧ ∃ rest,
      (shuffle [[part1; part2]; [alone]] []).1
        ≡ₚ (pickBlocks [[part1; part2]; [alone]] 1 []).1 ++ rest
      ∧ Forall (λ b, 1 < questionCount (pickBlocks [[part1; part2]; [alone]] 1 []).1
                         + len b) rest.
Proof.
  assert (0 < 1) as Hpos by lia.
  split; [exact Hpos|].
  exact (pickBlocks_maximal [[part1; part2]; [alone]] 1 [] Hpos).
Defined.

(** X4 on two blocks of two questions and a target of 1: the first one is
    taken. *)
Lemma pickBlocks_fallback_first_smallest_witness :
  pickFallback [[part1; part2]; [alone; other]] 1 [] = true
  ∧ ∃ before s after,
      (shuffle [[part1; part2]; [alone; other]] []).1 = before ++ s :: after
      ∧ (pickBlocks [[part1; part2]; [alone; other]] 1 []).1 = [s]
      ∧ Forall (λ b, len s < len b) before
      ∧ Forall (λ b, len s ≤ len b) after
      ∧ 1 < len s.
Proof.
  assert (pickFallback [[part1; part2]; [alone; other]] 1 [] = true) as Hfb
    by reflexivity.
  split; [exact Hfb|].
  exact (pickBlocks_fallback_first_smallest _ 1 [] Hfb).
Defined.

(** X5 on two single questions and a target of 1. *)
Lemma pickBlocks_singletons_witness :
  Forall (λ b, len b = 1) [[alone]; [other]]
  ∧ questionCount (pickBlocks [[alone]; [other]] 1 [1%nat]).1
    = Z.max 0 (Z.min 1 (Z.of_nat (length [[alone]; [other]]))).
Proof.
  assert (Forall (λ b, len b = 1) [[alone]; [other]]) as Hone
    by (repeat constructor).
  split; [exact Hone|].
  exact (pickBlocks_singletons _ 1 [1%nat] Hone).
Defined.

(** X6 on the reading exam under the tight request. *)
Lemma assemble_nonempty_witness :
  reading ∈ [reading]
  ∧ 0 < targetCount (effective_base tight) reading
  ∧ questions reading ≠ []
  ∧ 0 < r_count (assemble absolute tight [reading] []).1.
Proof.
  assert (reading ∈ [reading]) as Hin by left.
  assert (0 < targetCount (effective_base tight) reading) as Hpos by reflexivity.
  assert (questions reading ≠ []) as Hqs by done.
  split_and!; [exact Hin|exact Hpos|exact Hqs|].
  exact (assemble_nonempty absolute tight [reading] [] reading Hin Hpos Hqs).
Defined.

(** X7 on the reading exam with room for three questions. *)
Lemma assemble_maximal_witness :
  let req := {| query_base := NaN; query_max := Num 3;
                query_absoluteImages := true |} in
  trimFallback (effective_max req) (shuffledPool (effective_base req) [reading] []).1 0
  = false
  ∧ ∃ accepted rest,
      (shuffledPool (effective_base req) [reading] []).1 ≡ₚ accepted ++ rest
      ∧ r_questions (assemble absolute req [reading] []).1
        = normalize absolute true <$> mjoin accepted
      ∧ Forall (λ b, 3 < r_count (assemble absolute req [reading] []).1 + len b) rest.
Proof.
  set (req := {| query_base := NaN; query_max := Num 3;
                 query_absoluteImages := true |}).
  assert (trimFallback (effective_max req)
            (shuffledPool (effective_base req) [reading] []).1 0 = false) as Hfb
    by reflexivity.
  split; [exact Hfb|].
  exact (assemble_maximal absolute req [reading] [] Hfb).
Defined.

(** X10 at base 25, weights 33 and 40. *)
Lemma targetCount_monotone_witness :
  0 ≤ 25 ∧ 100 * 25 < 2 ^ 53 ∧ -100 ≤ 33 ∧ 33 ≤ 40 ∧ 40 ≤ 100
  ∧ ∃ t t' : Z,
      IEEE.integerValue (IEEE.targetCount (IEEE.ofZ 25) (Some (IEEE.ofZ 33))) = Some t
      ∧ IEEE.integerValue (IEEE.targetCount (IEEE.ofZ 25) (Some (IEEE.ofZ 40))) = Some t'
      ∧ t ≤ t' ∧ t' ≤ 25
      ∧ (0 ≤ 33 → 0 ≤ t)
      ∧ (40 = 100 → t' = 25).
Proof.
  assert (0 ≤ 25) as Hbase by lia.
  assert (100 * 25 < 2 ^ 53) as Hfull by done.
  assert (-100 ≤ 33) as Hlow by lia.
  assert (33 ≤ 40) as Hp by lia.
  assert (40 ≤ 100) as Hhigh by lia.
  split_and!; [exact Hbase|exact Hfull|exact Hlow|exact Hp|exact Hhigh|].
  exact (targetCount_monotone 25 33 40 Hbase Hfull Hlow Hp Hhigh).
Defined.

(** X12 on a relative reference with white space around it. *)
Lemma toAbsoluteImageUrl_absolute_witness :
  webProtocol web
  ∧ toAbsoluteImageUrl web (Some " /img/q.png ")
    = Some "https://api.example.org/img/q.png"
  ∧ isHttpUrl "https://api.example.org/img/q.png" = true.
Proof.
  assert (webProtocol web) as Hweb by (by right).
  assert (toAbsoluteImageUrl web (Some " /img/q.png ")
          = Some "https://api.example.org/img/q.png") as Hu by reflexivity.
  split_and!; [exact Hweb|exact Hu|].
  exact (proj1 (toAbsoluteImageUrl_absolute web _ _ Hweb Hu)).
Defined.

(** X13 on a reference under [/uploads]. *)
Lemma toAbsoluteImageUrl_idempotent_witness :
  webProtocol web
  ∧ toAbsoluteImageUrl web (toAbsoluteImageUrl web (Some "/uploads/q.png"))
    = toAbsoluteImageUrl web (Some "/uploads/q.png").
Proof.
  assert (webProtocol web) as Hweb by (by right).
  split; [exact Hweb|].
  exact (toAbsoluteImageUrl_idempotent web (Some "/uploads/q.png") Hweb).
Defined.

(** X14 on a reference under [/uploads]. *)
Lemma toAbsoluteImageUrl_one_rule_witness :
  String.eqb (trim "/uploads/q.png") "" = false
  ∧ isHttpUrl (trim "/uploads/q.png") = false
  ∧ toAbsoluteImageUrl web (Some "/uploads/q.png")
    = Some (String.append (originBase web)
              (String.append "/" (dropLeadingSlash (trim "/uploads/q.png")))).
Proof.
  assert (String.eqb (trim "/uploads/q.png") "" = false) as Hne by reflexivity.
  assert (isHttpUrl (trim "/uploads/q.png") = false) as Hrel by reflexivity.
  split_and!; [exact Hne|exact Hrel|].
  exact (toAbsoluteImageUrl_one_rule web "/uploads/q.png" Hne Hrel).
Defined.

(** X15 on the quiz. *)
Lemma assemble_images_absolute_witness :
  webProtocol web ∧ query_absoluteImages plain = true
  ∧ Forall (λ q, match image q with
                 | None => True
                 | Some u => isHttpUrl u = true
                 end)
      (r_questions (assemble (toAbsoluteImageUrl web) plain [quiz] []).1).
Proof.
  assert (webProtocol web) as Hweb by (by right).
  assert (query_absoluteImages plain = true) as Habs by reflexivity.
  split_and!; [exact Hweb|exact Habs|].
  exact (assemble_images_absolute web plain [quiz] [] Hweb Habs).
Defined.

(** X17 on a question added with two options. *)
Lemma routes_keep_answer_in_range_witness :
  ∃ d, addQuestion true 7 twoOptions = Ok d ∧ answerInRange d.
Proof.
  eexists. split; [reflexivity|].
  apply (proj1 (routes_keep_answer_in_range 7 twoOptions None shorten _)).
  reflexivity.
Defined.

(** X18 on the question with four options, shortened to two. *)
Lemma update_options_alone_witness :
  upd_options shorten = Some (Options ["x"; "y"])
  ∧ upd_correctAnswer shorten = None
  ∧ upd_setOrder shorten ≠ Some None
  ∧ (2 ≤ length ["x"; "y"])%nat
  ∧ ∃ d, updateQuestion (Some fourOptions) shorten = Ok d
         ∧ doc_options d = ["x"; "y"]
         ∧ doc_correctAnswer d = doc_correctAnswer fourOptions
         ∧ (Z.of_nat (length ["x"; "y"]) ≤ doc_correctAnswer fourOptions →
            ¬ answerInRange d).
Proof.
  assert (upd_options shorten = Some (Options ["x"; "y"])) as H1 by reflexivity.
  assert (upd_correctAnswer shorten = None) as H2 by reflexivity.
  assert (upd_setOrder shorten ≠ Some None) as H3 by done.
  assert (2 ≤ length ["x"; "y"])%nat as H4 by (simpl; lia).
  split_and!; [exact H1|exact H2|exact H3|exact H4|].
  exact (update_options_alone fourOptions ["x"; "y"] shorten H1 H2 H3 H4).
Defined.

(** X19 after the upload of one public note. *)
Lemma reachable_mirrorInSync_witness :
  reachable oneNote ∧ mirrorInSync oneNote.
Proof.
  assert (reachable oneNote) as Hreach.
  { apply reachable_serve; [apply reachable_empty|reflexivity]. }
  split; [exact Hreach|].
  exact (reachable_mirrorInSync oneNote Hreach).
Defined.

(** X20 after a registration and a request. *)
Lemma reachable_requestsConsistent_witness :
  reachable pending ∧ requestsConsistent pending.
Proof.
  assert (reachable pending) as Hreach.
  { apply reachable_serve; [|reflexivity].
    apply reachable_serve; [apply reachable_empty|exact I]. }
  split; [exact Hreach|].
  exact (reachable_requestsConsistent pending Hreach).
Defined.

(** X21 on the approved user, who then sends a new request. *)
Lemma validated_stays_witness :
  ∃ u, usersCol approved !! "u1" = Some u ∧ is_validated u = true
       ∧ ∃ u', usersCol (serve 1003 2026 (SubmitRequest "r2" "u1" "TX-43") approved).2
                 !! "u1" = Some u'
               ∧ is_validated u' = true.
Proof.
  eexists. 
  assert (usersCol approved !! "u1"
          = Some {| uid := "u1"; email := "u1@example.org"; displayName := None;
                    is_validated := true; request_sent := false; last_score := 0;
                    Board := "none"; ExamYEar := 0; lastNotified := None;
                    user_createdAt := 1000; is_Admin := false |}) as Hu
    by reflexivity.
  split_and!; [exact Hu|reflexivity|].
  exact (validated_stays 1003 2026 (SubmitRequest "r2" "u1" "TX-43") approved
           "u1" _ Hu eq_refl).
Defined.

(** X22 on the pending request. *)
Lemma approveRequest_validates_witness :
  requestsConsistent pending
  ∧ requestsCol pending !! "r1"
    = Some {| request_uid := "u1"; transactionId := "TX-42";
              request_createdAt := 1001 |}
  ∧ ∃ u d',
      approveRequest "r1" pending = (200, d')
      ∧ usersCol d' !! "u1" = Some u
      ∧ is_validated u = true ∧ request_sent u = false
      ∧ ∀ rid' rq', requestsCol d' !! rid' = Some rq' →
                    String.eqb (request_uid rq') "u1" = false.
Proof.
  assert (requestsConsistent pending) as Hinv.
  { apply serve_requestsConsistent; [|reflexivity].
    apply serve_requestsConsistent; [apply requestsConsistent_empty|exact I]. }
  assert (requestsCol pending !! "r1"
          = Some {| request_uid := "u1"; transactionId := "TX-42";
                    request_createdAt := 1001 |}) as Hrq by reflexivity.
  split_and!; [exact Hinv|exact Hrq|].
  exact (approveRequest_validates pending "r1" _ Hinv Hrq).
Defined.
